(** * Loan risk evaluation pipeline: the Step Functions workflow and its stores

    The risk evaluation pipeline of the repository is the state machine
    [server/stepfunctions/loanEvaluator-sf-riskEvaluation.json], written in the
    Amazon States Language (ASL), together with the table of
    [server/database/schema.sql] that its last stage writes to.

    This development embeds
    - JSON documents and the ASL paths the definition uses,
    - the definition itself, field by field, as a value of [StateMachine],
    - an interpreter of the ASL features the definition relies on (InputPath,
      Parameters, ResultPath, TimeoutSeconds, Retry, Catch, Next/End, Fail),
      run against a [World] that answers every task invocation,
    - the table [scored_loan_applications] with its primary key,
    and proves the properties of the pipeline over them. *)

From Stdlib Require Import ZArith QArith Qpower Lia.
From stdpp Require Import base option gmap strings list fin_maps.

Local Open Scope string_scope.
Local Open Scope list_scope.

(** * Part I: the model *)

(** ** JSON documents *)

#[local] Set Warnings "-register-all".

Inductive json : Type :=
| JNull
| JBool (b : bool)
| JNum (q : Q)
| JStr (s : string)
| JArr (items : list json)
| JObj (fields : gmap string json).

(** A reference path [$.a.b] is the list of its field names; [$] is []. *)
Definition path : Type := list string.

Fixpoint get_path (p : path) (doc : json) : option json :=
  match p with
  | [] => Some doc
  | k :: p' =>
      match doc with
      | JObj m => match m !! k with
                  | Some child => get_path p' child
                  | None => None
                  end
      | _ => None
      end
  end.

(** Writing a value at a path: an existing field is overwritten, a missing
    one is added; a path through something that is not an object cannot be
    applied. *)
Fixpoint set_path (p : path) (v : json) (doc : json) : option json :=
  match p with
  | [] => Some v
  | k :: p' =>
      match doc with
      | JObj m =>
          match set_path p' v (default (JObj ∅) (m !! k)) with
          | Some child => Some (JObj (<[k := child]> m))
          | None => None
          end
      | _ => None
      end
  end.

(** ** The Amazon States Language fragment used by the definition *)

(** A payload template is the value of a [Parameters] field. A key written
    ["k.$": "$.p"] in the definition is the field [k] bound to [TPath p];
    ["k.$": "$$.Execution.Input"] is [k] bound to [TExecutionInput]. *)
Inductive template : Type :=
| TConst (v : json)
| TPath (p : path)
| TExecutionInput
| TObj (fields : list (string * template)).

Inductive Jitter : Type := NONE | FULL.

Module Retrier.
Record t : Type := {
  ErrorEquals : list string;
  IntervalSeconds : Q;
  MaxAttempts : nat;
  BackoffRate : Q;
  JitterStrategy : Jitter
}.
End Retrier.

Module Catcher.
Record t : Type := {
  ErrorEquals : list string;
  ResultPath : path;
  Next : string
}.
End Catcher.

Inductive Transition : Type :=
| Next (state : string)
| End_.

Record TaskState : Type := {
  Resource : string;
  TimeoutSeconds : option Q;
  InputPath : path;
  Parameters : option template;
  ResultPath : path;
  Retry : list Retrier.t;
  Catch : list Catcher.t;
  transition : Transition
}.

Record FailState : Type := {
  Error : string;
  CausePath : path
}.

Inductive State : Type :=
| Task (t : TaskState)
| Fail (f : FailState).

Record StateMachine : Type := {
  StartAt : string;
  States : gmap string State
}.

(** ** The definition, [loanEvaluator-sf-riskEvaluation.json] *)

Definition lambda_errors : list string :=
  [ "Lambda.ServiceException"; "Lambda.AWSLambdaException";
    "Lambda.SdkClientException"; "Lambda.TooManyRequestsException" ].

Definition catch_all (result_path : path) (next : string) : Catcher.t :=
  {| Catcher.ErrorEquals := ["States.ALL"];
     Catcher.ResultPath := result_path;
     Catcher.Next := next |}.

Definition clean_retrier : Retrier.t :=
  {| Retrier.ErrorEquals := lambda_errors ++ ["DataValidationError"];
     Retrier.IntervalSeconds := 3;
     Retrier.MaxAttempts := 2;
     Retrier.BackoffRate := 3 # 2;
     Retrier.JitterStrategy := NONE |}.

Definition CleanAndFeatureEngineer : TaskState :=
  {| Resource := "arn:aws:lambda:eu-west-1:290981215299:function:loadEvaluator-fn-CleanAndTransform";
     TimeoutSeconds := Some 120%Q;
     InputPath := [];
     Parameters := None;
     ResultPath := [];
     Retry := [clean_retrier];
     Catch := [catch_all ["errorInfo"] "SendToDLQ"];
     transition := Next "CallScoringService" |}.

Definition score_retrier : Retrier.t :=
  {| Retrier.ErrorEquals := lambda_errors ++ ["ScoringServiceCallFailed"];
     Retrier.IntervalSeconds := 5;
     Retrier.MaxAttempts := 3;
     Retrier.BackoffRate := 2;
     Retrier.JitterStrategy := FULL |}.

Definition CallScoringService : TaskState :=
  {| Resource := "arn:aws:lambda:eu-west-1:290981215299:function:loanEvaluator-fn-CallScoringService";
     TimeoutSeconds := Some 60%Q;
     InputPath := ["features_for_scoring"];
     Parameters := None;
     ResultPath := ["risk_score"];
     Retry := [score_retrier];
     Catch := [catch_all ["errorInfo"] "SendToDLQ"];
     transition := Next "PersistScoredApplication" |}.

Definition persist_retrier : Retrier.t :=
  {| Retrier.ErrorEquals :=
       lambda_errors ++ ["DatabaseConnectionError"; "DatabaseWriteError"];
     Retrier.IntervalSeconds := 5;
     Retrier.MaxAttempts := 3;
     Retrier.BackoffRate := 2;
     Retrier.JitterStrategy := FULL |}.

Definition PersistScoredApplication : TaskState :=
  {| Resource := "arn:aws:lambda:eu-west-1:290981215299:function:loanEvaluator-fn-PersistScoredApplication";
     TimeoutSeconds := Some 90%Q;
     InputPath := [];
     Parameters := None;
     ResultPath := [];
     Retry := [persist_retrier];
     Catch := [catch_all ["errorInfo"] "SendToDLQ"];
     transition := End_ |}.

Definition dlq_message_body : template :=
  TObj [ ("failedStage", TConst (JStr "CleanAndFeatureEngineer"));
         ("errorInfo", TPath ["errorInfo"]);
         ("input", TExecutionInput) ].

Definition SendToDLQ : TaskState :=
  {| Resource := "arn:aws:states:::sqs:sendMessage";
     TimeoutSeconds := None;
     InputPath := [];
     Parameters := Some (TObj [
       ("QueueUrl", TConst (JStr "https://sqs.eu-west-1.amazonaws.com/290981215299/application-failure-dlq"));
       ("MessageBody", dlq_message_body) ]);
     ResultPath := ["sqsSendMessageResult"];
     Retry := [];
     Catch := [catch_all ["sendToDlqErrorDetails"] "ProcessingFailed"];
     transition := Next "ProcessingFailed" |}.

Definition ProcessingFailed : FailState :=
  {| Error := "ApplicationProcessingFailedError";
     CausePath := ["errorInfo"; "Cause"] |}.

Definition riskEvaluation : StateMachine :=
  {| StartAt := "CleanAndFeatureEngineer";
     States := list_to_map [
       ("CleanAndFeatureEngineer", Task CleanAndFeatureEngineer);
       ("CallScoringService", Task CallScoringService);
       ("PersistScoredApplication", Task PersistScoredApplication);
       ("SendToDLQ", Task SendToDLQ);
       ("ProcessingFailed", Fail ProcessingFailed) ] |}.

(** ** The world a workflow runs in *)

(** What a task resource (a Lambda function, the SQS integration) answers to
    one invocation, and after how many seconds. *)
Inductive Reply : Type :=
| Returned (output : json)
| Raised (error cause : string).

Record Response : Type := {
  elapsed : Q;
  reply : Reply
}.

(** [respond resource n input] is the answer to invocation number [n]
    (counted from 0 within one state) of [resource] on [input];
    [jitter state k] is the random draw, meant to lie in [0, 1], that scales
    the delay before retry [k] of [state] under full jitter. *)
Record World : Type := {
  respond : string -> nat -> json -> Response;
  jitter : string -> nat -> Q
}.

(** ** Interpreter *)

Inductive Outcome : Type :=
| Success (output : json)
| Failure (error cause : string).

Definition is_success (o : Outcome) : bool :=
  match o with Success _ => true | Failure _ _ => false end.

(** A task that runs longer than TimeoutSeconds fails with [States.Timeout]. *)
Definition timed_out (t : TaskState) (r : Response) : bool :=
  match TimeoutSeconds t with
  | Some limit => negb (Qle_bool (elapsed r) limit)
  | None => false
  end.

Definition attempt_outcome (t : TaskState) (r : Response) : Outcome :=
  if timed_out t r then Failure "States.Timeout" ""
  else match reply r with
       | Returned v => Success v
       | Raised e c => Failure e c
       end.

(** ErrorEquals: an exact name, or one of the wildcards [States.ALL] and
    [States.TaskFailed] (every error but [States.Timeout]). The errors matched
    here are those a task reports; a failure of the interpreter itself is not
    one of them, see [Aborted]. *)
Definition name_matches (e pattern : string) : bool :=
  String.eqb pattern "States.ALL"
  || (String.eqb pattern "States.TaskFailed" && negb (String.eqb e "States.Timeout"))
  || String.eqb pattern e.

Definition error_matches (patterns : list string) (e : string) : bool :=
  existsb (name_matches e) patterns.

(** Retriers are scanned in order; the first one that matches the error
    decides. It grants a retry while its own count of retries is below
    MaxAttempts. The result is the retrier, the number of the retry it
    grants (from 1) and the updated counts. *)
Fixpoint next_retry (rs : list (Retrier.t * nat)) (e : string)
  : option (Retrier.t * nat * list (Retrier.t * nat)) :=
  match rs with
  | [] => None
  | (r, used) :: rs' =>
      if error_matches (Retrier.ErrorEquals r) e then
        if (used <? Retrier.MaxAttempts r)%nat
        then Some (r, S used, (r, S used) :: rs')
        else None
      else
        match next_retry rs' e with
        | Some (r', k, rs'') => Some (r', k, (r, used) :: rs'')
        | None => None
        end
  end.

(** Delay before retry [k] (k >= 1): IntervalSeconds * BackoffRate^(k-1),
    scaled by the draw [u] under full jitter. *)
Definition backoff_interval (r : Retrier.t) (k : nat) : Q :=
  (Retrier.IntervalSeconds r * Retrier.BackoffRate r ^ Z.of_nat (k - 1))%Q.

Definition retry_delay (r : Retrier.t) (k : nat) (u : Q) : Q :=
  match Retrier.JitterStrategy r with
  | NONE => backoff_interval r k
  | FULL => (u * backoff_interval r k)%Q
  end.

Inductive Event : Type :=
| Entered (state : string)
| Invoked (state : string) (attempt : nat) (input : json) (o : Outcome)
| Slept (state : string) (retry : nat) (seconds : Q).

Fixpoint run_attempts (fuel : nat) (w : World) (name : string) (t : TaskState)
    (input : json) (rs : list (Retrier.t * nat)) (n : nat)
  : option (list Event * Outcome) :=
  match fuel with
  | O => None
  | S fuel' =>
      let o := attempt_outcome t (respond w (Resource t) n input) in
      match o with
      | Success _ => Some ([Invoked name n input o], o)
      | Failure e _ =>
          match next_retry rs e with
          | Some (r, k, rs') =>
              match run_attempts fuel' w name t input rs' (S n) with
              | Some (evs, final) =>
                  Some (Invoked name n input o
                          :: Slept name k (retry_delay r k (jitter w name k))
                          :: evs, final)
              | None => None
              end
          | None => Some ([Invoked name n input o], o)
          end
      end
  end.

(** Retries still available over all retriers. *)
Fixpoint budget (rs : list (Retrier.t * nat)) : nat :=
  match rs with
  | [] => 0
  | (r, used) :: rs' => (Retrier.MaxAttempts r - used) + budget rs'
  end.

Definition fresh_counts (t : TaskState) : list (Retrier.t * nat) :=
  map (fun r => (r, 0%nat)) (Retry t).

Definition task_attempts (w : World) (name : string) (t : TaskState) (input : json)
  : option (list Event * Outcome) :=
  run_attempts (S (budget (fresh_counts t))) w name t input (fresh_counts t) 0.

Fixpoint eval_template (exec_input doc : json) (tpl : template) : option json :=
  match tpl with
  | TConst v => Some v
  | TPath p => get_path p doc
  | TExecutionInput => Some exec_input
  | TObj fields =>
      (fix eval_fields (fs : list (string * template)) : option (gmap string json) :=
         match fs with
         | [] => Some ∅
         | (k, tp) :: fs' =>
             match eval_template exec_input doc tp, eval_fields fs' with
             | Some v, Some m => Some (<[k := v]> m)
             | _, _ => None
             end
         end) fields
      ≫= fun m => Some (JObj m)
  end.

Fixpoint find_catcher (cs : list Catcher.t) (e : string) : option Catcher.t :=
  match cs with
  | [] => None
  | c :: cs' => if error_matches (Catcher.ErrorEquals c) e then Some c else find_catcher cs' e
  end.

(** The error output a catcher stores at its ResultPath. *)
Definition error_info (e c : string) : json :=
  JObj (<["Error" := JStr e]> (<["Cause" := JStr c]> ∅)).

(** How an execution ends. [Failed] is a Fail state or an uncaught task
    error; [Aborted] is the interpreter itself giving up on a path that does
    not resolve, which no Retry or Catch sees. *)
Inductive Result : Type :=
| Succeeded (output : json)
| Failed (error cause : string)
| Aborted (error : string).

Inductive Step : Type :=
| Goto (next : string) (data : json)
| Finish (r : Result).

Definition task_input (exec_input : json) (t : TaskState) (data : json) : option json :=
  match get_path (InputPath t) data with
  | Some selected =>
      match Parameters t with
      | Some tpl => eval_template exec_input selected tpl
      | None => Some selected
      end
  | None => None
  end.

Definition exec_task (w : World) (exec_input : json) (name : string) (t : TaskState)
    (data : json) : option (list Event * Step) :=
  match task_input exec_input t data with
  | None => Some ([], Finish (Aborted "States.Runtime"))
  | Some input =>
      match task_attempts w name t input with
      | None => None
      | Some (evs, Success v) =>
          match set_path (ResultPath t) v data with
          | Some data' =>
              Some (evs, match transition t with
                         | Next s => Goto s data'
                         | End_ => Finish (Succeeded data')
                         end)
          | None => Some (evs, Finish (Aborted "States.ResultPathMatchFailure"))
          end
      | Some (evs, Failure e c) =>
          match find_catcher (Catch t) e with
          | Some cr =>
              match set_path (Catcher.ResultPath cr) (error_info e c) data with
              | Some data' => Some (evs, Goto (Catcher.Next cr) data')
              | None => Some (evs, Finish (Aborted "States.Runtime"))
              end
          | None => Some (evs, Finish (Failed e c))
          end
      end
  end.

Definition exec_fail (f : FailState) (data : json) : Result :=
  match get_path (CausePath f) data with
  | Some (JStr c) => Failed (Error f) c
  | _ => Aborted "States.Runtime"
  end.

Fixpoint run (fuel : nat) (m : StateMachine) (w : World) (exec_input : json)
    (cur : string) (data : json) : option (list Event * Result) :=
  match fuel with
  | O => None
  | S fuel' =>
      match States m !! cur with
      | None => Some ([], Aborted "States.Runtime")
      | Some (Fail f) => Some ([Entered cur], exec_fail f data)
      | Some (Task t) =>
          match exec_task w exec_input cur t data with
          | None => None
          | Some (evs, Finish r) => Some (Entered cur :: evs, r)
          | Some (evs, Goto next data') =>
              match run fuel' m w exec_input next data' with
              | Some (evs', r) => Some (Entered cur :: evs ++ evs', r)
              | None => None
              end
          end
      end
  end.

(** One execution of the machine on [input]: every state of this definition
    is entered at most once, so as many steps as there are states suffice. *)
Definition execute (m : StateMachine) (w : World) (input : json)
  : option (list Event * Result) :=
  run (size (States m)) m w input (StartAt m) input.

(** ** Reading a trace *)

Definition entered (evs : list Event) : list string :=
  omap (fun ev => match ev with Entered s => Some s | _ => None end) evs.

(** The invocations of one state, in order: input and outcome of each. *)
Definition invocations (name : string) (evs : list Event) : list (json * Outcome) :=
  omap (fun ev => match ev with
                  | Invoked s _ i o => if String.eqb s name then Some (i, o) else None
                  | _ => None
                  end) evs.

Definition sleeps (name : string) (evs : list Event) : list (nat * Q) :=
  omap (fun ev => match ev with
                  | Slept s k d => if String.eqb s name then Some (k, d) else None
                  | _ => None
                  end) evs.

(** Every event of [evs] belongs to state [name], and every invocation is on
    [input]. *)
Definition events_of (name : string) (input : json) (evs : list Event) : Prop :=
  Forall (fun ev => match ev with
                    | Entered _ => False
                    | Invoked s _ i _ => s = name /\ i = input
                    | Slept s _ _ => s = name
                    end) evs.

(** The three stages of the pipeline and the states that run them. *)
Inductive Stage : Type := Clean | Score | Persist.

Definition stage_of (name : string) : option Stage :=
  if String.eqb name "CleanAndFeatureEngineer" then Some Clean
  else if String.eqb name "CallScoringService" then Some Score
  else if String.eqb name "PersistScoredApplication" then Some Persist
  else None.


(** The attempts made on stage functions, in order, each with whether it
    succeeded. *)
Definition stage_log (evs : list Event) : list (Stage * bool) :=
  omap (fun ev => match ev with
                  | Invoked s _ _ o =>
                      match stage_of s with
                      | Some st => Some (st, is_success o)
                      | None => None
                      end
                  | _ => None
                  end) evs.

(** The invocations of the stage functions, in order: state and outcome. *)
Definition stage_calls (evs : list Event) : list (string * Outcome) :=
  omap (fun ev => match ev with
                  | Invoked s _ _ o =>
                      match stage_of s with
                      | Some _ => Some (s, o)
                      | None => None
                      end
                  | _ => None
                  end) evs.

(** The dead-letter records handed to the queue: the MessageBody of every
    message SendToDLQ was invoked on. *)
Definition dead_letters (evs : list Event) : list json :=
  omap (fun io => get_path ["MessageBody"] io.1) (invocations "SendToDLQ" evs).

#[local] Instance Stage_eq_dec : EqDecision Stage.
Proof. solve_decision. Defined.



(** An error some retrier of the list names. *)
Definition retryable (rs : list Retrier.t) (e : string) : bool :=
  existsb (fun r => error_matches (Retrier.ErrorEquals r) e) rs.

(** ** State names and the dead-letter message *)

Abbreviation CLEAN := "CleanAndFeatureEngineer" (only parsing).
Abbreviation SCORE := "CallScoringService" (only parsing).
Abbreviation PERSIST := "PersistScoredApplication" (only parsing).
Abbreviation DLQ := "SendToDLQ" (only parsing).
Abbreviation APP_FAILED := "ApplicationProcessingFailedError" (only parsing).

(** The message SendToDLQ hands to SQS: its Parameters, resolved. *)
Definition dlq_body (info exec_input : json) : gmap string json :=
  <["failedStage" := JStr CLEAN]>
    (<["errorInfo" := info]> (<["input" := exec_input]> ∅)).

Definition dlq_message (info exec_input : json) : json :=
  JObj (<["QueueUrl" := JStr "https://sqs.eu-west-1.amazonaws.com/290981215299/application-failure-dlq"]>
          (<["MessageBody" := JObj (dlq_body info exec_input)]> ∅)).

(** What a task state with a single catch-all catcher does, given the
    outcome of its retry loop. *)
Definition after_task (t : TaskState) (p : path) (next : string) (data : json)
    (o : Outcome) : Step :=
  match o with
  | Success v =>
      match set_path (ResultPath t) v data with
      | Some data' => match transition t with
                      | Next s => Goto s data'
                      | End_ => Finish (Succeeded data')
                      end
      | None => Finish (Aborted "States.ResultPathMatchFailure")
      end
  | Failure e c =>
      match set_path p (error_info e c) data with
      | Some data' => Goto next data'
      | None => Finish (Aborted "States.Runtime")
      end
  end.

(** ** The shape of every execution *)

(** The dispatcher starts an execution on the JSON object of one
    application, so executions are described for inputs [JObj fields]. *)

(** The failure path: SendToDLQ is invoked on the message built from the
    caught error and the execution input, then ProcessingFailed ends the
    execution with the cause of the caught error. *)
Inductive DeadLettered (w : World) (exec_input : json) (e c : string)
  : list Event -> Result -> Prop :=
| dead_lettered aD oD :
    task_attempts w DLQ SendToDLQ (dlq_message (error_info e c) exec_input) = Some (aD, oD) ->
    DeadLettered w exec_input e c
      (Entered DLQ :: aD ++ [Entered "ProcessingFailed"]) (Failed APP_FAILED c).

Inductive Execution (w : World) (fields : gmap string json)
  : list Event -> Result -> Prop :=
| exec_clean_failed aC e c tl r :
    task_attempts w CLEAN CleanAndFeatureEngineer (JObj fields) = Some (aC, Failure e c) ->
    DeadLettered w (JObj fields) e c tl r ->
    Execution w fields (Entered CLEAN :: aC ++ tl) r
| exec_no_features aC out :
    task_attempts w CLEAN CleanAndFeatureEngineer (JObj fields) = Some (aC, Success out) ->
    get_path ["features_for_scoring"] out = None ->
    Execution w fields (Entered CLEAN :: aC ++ [Entered SCORE]) (Aborted "States.Runtime")
| exec_score_failed aC cm f aS e c tl r :
    task_attempts w CLEAN CleanAndFeatureEngineer (JObj fields) = Some (aC, Success (JObj cm)) ->
    cm !! "features_for_scoring" = Some f ->
    task_attempts w SCORE CallScoringService f = Some (aS, Failure e c) ->
    DeadLettered w (JObj fields) e c tl r ->
    Execution w fields (Entered CLEAN :: aC ++ Entered SCORE :: aS ++ tl) r
| exec_persist_failed aC cm f aS s aP e c tl r :
    task_attempts w CLEAN CleanAndFeatureEngineer (JObj fields) = Some (aC, Success (JObj cm)) ->
    cm !! "features_for_scoring" = Some f ->
    task_attempts w SCORE CallScoringService f = Some (aS, Success s) ->
    task_attempts w PERSIST PersistScoredApplication (JObj (<["risk_score" := s]> cm))
      = Some (aP, Failure e c) ->
    DeadLettered w (JObj fields) e c tl r ->
    Execution w fields
      (Entered CLEAN :: aC ++ Entered SCORE :: aS ++ Entered PERSIST :: aP ++ tl) r
| exec_succeeded aC cm f aS s aP out :
    task_attempts w CLEAN CleanAndFeatureEngineer (JObj fields) = Some (aC, Success (JObj cm)) ->
    cm !! "features_for_scoring" = Some f ->
    task_attempts w SCORE CallScoringService f = Some (aS, Success s) ->
    task_attempts w PERSIST PersistScoredApplication (JObj (<["risk_score" := s]> cm))
      = Some (aP, Success out) ->
    Execution w fields
      (Entered CLEAN :: aC ++ Entered SCORE :: aS ++ Entered PERSIST :: aP)
      (Succeeded out).


Definition dlq_tail (msg : json) (o : Outcome) : list Event :=
  [Entered DLQ; Invoked DLQ 0 msg o; Entered "ProcessingFailed"].

(** ** Sample worlds and states *)

(** A workflow whose scoring service has no model: CLEAN succeeds, SCORE
    raises an error no retrier names. *)
Definition score_down : World :=
  {| respond := fun resource _ _ =>
       {| elapsed := 1;
          reply :=
            if String.eqb resource (Resource CleanAndFeatureEngineer)
            then Returned (JObj {[ "features_for_scoring" := JObj ∅ ]})
            else if String.eqb resource (Resource CallScoringService)
            then Raised "ModelNotFound" "no model"
            else Returned JNull |};
     jitter := fun _ _ => 0%Q |}.

Definition application : gmap string json :=
  {[ "application_id" := JStr "a-1" ]}.

(** The state that runs each stage. *)
Definition stage_name (st : Stage) : string :=
  match st with
  | Clean => CLEAN
  | Score => SCORE
  | Persist => PERSIST
  end.

Definition stage_task (st : Stage) : TaskState :=
  match st with
  | Clean => CleanAndFeatureEngineer
  | Score => CallScoringService
  | Persist => PersistScoredApplication
  end.

(** The outcome of invocation number [n] of a task on [input], from the
    answer of the world. *)
Definition answer (w : World) (t : TaskState) (n : nat) (input : json) : Outcome :=
  attempt_outcome t (respond w (Resource t) n input).

(** The first attempt of a stage on [input]. *)
Definition first_attempt (w : World) (st : Stage) (input : json) : Event :=
  Invoked (stage_name st) 0 input (answer w (stage_task st) 0 input).

(** Every invocation of the trace is of a task state of the definition and
    carries the outcome of the world's answer to it. *)
Definition answered (w : World) (evs : list Event) : Prop :=
  Forall (fun ev => match ev with
                    | Invoked s n input o =>
                        exists t, States riskEvaluation !! s = Some (Task t)
                                  /\ o = answer w t n input
                    | _ => True
                    end) evs.

Definition score_state : gmap string json :=
  {[ "features_for_scoring" := JObj ∅ ]}.

(** A scoring service that is down for good. *)
Definition score_unavailable : World :=
  {| respond := fun resource _ _ =>
       {| elapsed := 1;
          reply :=
            if String.eqb resource (Resource CleanAndFeatureEngineer)
            then Returned (JObj {[ "features_for_scoring" := JObj ∅ ]})
            else if String.eqb resource (Resource CallScoringService)
            then Raised "ScoringServiceCallFailed" "503"
            else Returned JNull |};
     jitter := fun _ _ => (1 # 2)%Q |}.

(** A cleaning function that returns no features. *)
Definition clean_without_features : World :=
  {| respond := fun _ _ _ => {| elapsed := 1; reply := Returned (JObj ∅) |};
     jitter := fun _ _ => 0%Q |}.

(** A cleaning function that rejects its input for good. *)
Definition clean_rejects : World :=
  {| respond := fun _ _ _ =>
       {| elapsed := 1; reply := Raised "DataValidationError" "bad record" |};
     jitter := fun _ _ => 0%Q |}.

(** A world in which every stage succeeds at once. *)
Definition all_up : World :=
  {| respond := fun resource _ input =>
       {| elapsed := 1;
          reply :=
            if String.eqb resource (Resource CleanAndFeatureEngineer)
            then Returned (JObj (<["features_for_scoring" := JObj {[ "dti" := JNum (1 # 5) ]}]>
                                   (<["raw_s3_key" := JStr "raw/a-1.json"]>
                                      {[ "application_id" := JStr "a-1" ]})))
            else if String.eqb resource (Resource CallScoringService)
            then Returned (JNum (42 # 100))
            else Returned input |};
     jitter := fun _ _ => 0%Q |}.

Definition cleaned : gmap string json :=
  <["features_for_scoring" := JObj {[ "dti" := JNum (1 # 5) ]}]>
    (<["raw_s3_key" := JStr "raw/a-1.json"]> {[ "application_id" := JStr "a-1" ]}).


(** ** The table of scored applications, [schema.sql] *)

Module Store.

Inductive RiskLevel : Type := HIGH | MEDIUM | LOW.

(** The columns of [scored_loan_applications], all NOT NULL; [risk_level]
    is generated from [risk_score] and so is not stored in the record. *)
Record Row : Type := {
  application_id : string;
  message_id : string;
  loan_amnt : Z;
  term : Z;
  int_rate : Q;
  installment : Q;
  emp_length : Z;
  annual_inc : Q;
  dti : Q;
  addr_state : string;
  credit_to_income_ratio : Q;
  is_self_employed : bool;
  loan_month : Z;
  is_long_term : bool;
  risk_score : Q;
  processing_timestamp : Z
}.

Definition risk_level (r : Row) : RiskLevel :=
  if Qle_bool (75 # 100) (risk_score r) then HIGH
  else if Qle_bool (35 # 100) (risk_score r) then MEDIUM
  else LOW.

(** [application_id TEXT PRIMARY KEY]: no two rows share an application_id. *)
Definition primary_key (t : list Row) : Prop :=
  NoDup (map application_id t).

Definition rows_of (id : string) (t : list Row) : list Row :=
  filter (fun r => application_id r = id) t.

(** A plain INSERT: the primary key rejects a row whose application_id is
    already in the table. *)
Definition insert_row (r : Row) (t : list Row) : option (list Row) :=
  if decide (application_id r ∈ map application_id t) then None else Some (t ++ [r]).

(** INSERT ... ON CONFLICT (application_id) DO UPDATE: the row with the
    same application_id is replaced, a new one is appended. *)
Fixpoint upsert (r : Row) (t : list Row) : list Row :=
  match t with
  | [] => [r]
  | r' :: t' =>
      if String.eqb (application_id r') (application_id r)
      then r :: t'
      else r' :: upsert r t'
  end.

(** The engineered features the workflow hands to persistence: the columns
    of the table other than the key, the score and the timestamp. *)
Record EngineeredFeatures : Type := {
  f_message_id : string;
  f_loan_amnt : Z;
  f_term : Z;
  f_int_rate : Q;
  f_installment : Q;
  f_emp_length : Z;
  f_annual_inc : Q;
  f_dti : Q;
  f_addr_state : string;
  f_credit_to_income_ratio : Q;
  f_is_self_employed : bool;
  f_loan_month : Z;
  f_is_long_term : bool
}.

Definition make_row (id : string) (f : EngineeredFeatures) (score : Q) (timestamp : Z) : Row :=
  {| application_id := id;
     message_id := f_message_id f;
     loan_amnt := f_loan_amnt f;
     term := f_term f;
     int_rate := f_int_rate f;
     installment := f_installment f;
     emp_length := f_emp_length f;
     annual_inc := f_annual_inc f;
     dti := f_dti f;
     addr_state := f_addr_state f;
     credit_to_income_ratio := f_credit_to_income_ratio f;
     is_self_employed := f_is_self_employed f;
     loan_month := f_loan_month f;
     is_long_term := f_is_long_term f;
     risk_score := score;
     processing_timestamp := timestamp |}.

(** Modelled from the spec: the write of the PERSIST stage. The function
    loanEvaluator-fn-PersistScoredApplication that performs it is not among
    the sources; the spec gives it as
    [persist(ApplicationId, EngineeredFeatures, RiskScore, timestamp)],
    keyed by ApplicationId and an upsert, not an insert-only operation. *)
Definition persist (id : string) (f : EngineeredFeatures) (score : Q) (timestamp : Z)
    (t : list Row) : list Row :=
  upsert (make_row id f score timestamp) t.

Definition sample_features : EngineeredFeatures :=
  {| f_message_id := "m-1"; f_loan_amnt := 12000; f_term := 36;
     f_int_rate := 1199 # 10000; f_installment := 39850 # 100; f_emp_length := 4;
     f_annual_inc := 65000; f_dti := 1830 # 10000; f_addr_state := "CA";
     f_credit_to_income_ratio := 1846 # 10000; f_is_self_employed := false;
     f_loan_month := 7; f_is_long_term := false |}.

End Store.

(** ** Terminal records of one execution *)







(** ** Dispatcher and idempotency ledger *)

Module Dispatcher.

Inductive LedgerState : Type := IN_PROGRESS | COMPLETED.

Record IdempotencyRecord : Type := {
  applicationId : nat;
  state : LedgerState;
  expiresAt : Z
}.

(** The ledger: one record per natural key, and the number of
    ApplicationIds minted so far (the next one to mint). *)
Record Ledger : Type := {
  entries : gmap string IdempotencyRecord;
  minted : nat
}.

(** Seconds an entry lives: one hour. *)
Definition TTL : Z := 3600.

(** The answers of the ledger; [Granted id] is the spec's
    Admitted(applicationId). *)
Inductive Admission : Type :=
| Granted (id : nat)
| AlreadyInProgress
| AlreadyCompleted.

Definition grant (now : Z) (naturalKey : string) (l : Ledger) : Admission * Ledger :=
  (Granted (minted l),
   {| entries := <[naturalKey := {| applicationId := minted l;
                                   state := IN_PROGRESS;
                                   expiresAt := now + TTL |}]> (entries l);
      minted := S (minted l) |}).

(** Modelled from the spec: the ledger contract
    [beginOrReject(naturalKey) -> Admitted(applicationId) | AlreadyInProgress
    | AlreadyCompleted], one atomic conditional write; an entry past its
    expiry counts as absent. The dispatcher function SqsToStepDispatcher and
    its ledger table are not among the sources. *)
Definition beginOrReject (now : Z) (naturalKey : string) (l : Ledger)
  : Admission * Ledger :=
  match entries l !! naturalKey with
  | Some rec =>
      if (now <? expiresAt rec)%Z
      then (match state rec with
            | IN_PROGRESS => AlreadyInProgress
            | COMPLETED => AlreadyCompleted
            end, l)
      else grant now naturalKey l
  | None => grant now naturalKey l
  end.

Definition complete (id : nat) (rec : IdempotencyRecord) : IdempotencyRecord :=
  if (applicationId rec =? id)%nat
  then {| applicationId := applicationId rec; state := COMPLETED; expiresAt := expiresAt rec |}
  else rec.

(** Modelled from the spec: [markCompleted(applicationId)], which turns the
    entry of that application to COMPLETED and leaves its expiry alone. *)
Definition markCompleted (id : nat) (l : Ledger) : Ledger :=
  {| entries := complete id <$> entries l; minted := minted l |}.

(** What happens to the dispatcher, one atomic action at a time: a message
    is delivered at some time, or a workflow it started reaches a terminal
    state. *)
Inductive Action : Type :=
| Deliver (now : Z) (naturalKey : string)
| WorkflowSucceeded (id : nat)
| WorkflowDeadLettered (id : nat).

Record State : Type := {
  ledger : Ledger;
  started : list (string * nat)
}.

(** Modelled from the spec: the dispatcher. A delivery goes through
    [beginOrReject]; on [Admitted] a workflow is started for the minted
    ApplicationId, otherwise the message is acknowledged and nothing starts.
    A workflow that succeeds marks its entry completed; one that is
    dead-lettered leaves the ledger as it is. *)
Definition step (s : State) (a : Action) : State :=
  match a with
  | Deliver now naturalKey =>
      match beginOrReject now naturalKey (ledger s) with
      | (Granted id, l') =>
          {| ledger := l'; started := started s ++ [(naturalKey, id)] |}
      | (_, l') => {| ledger := l'; started := started s |}
      end
  | WorkflowSucceeded id =>
      {| ledger := markCompleted id (ledger s); started := started s |}
  | WorkflowDeadLettered _ => s
  end.

Definition dispatch (actions : list Action) (s : State) : State :=
  foldl step s actions.



(** The ApplicationIds the ledger mints while the dispatcher serves one
    action, if that is a delivery of the key: those between the counter
    before and the counter after. *)
Definition minted_in (naturalKey : string) (s : State) (a : Action) : list nat :=
  match a with
  | Deliver _ k =>
      if String.eqb k naturalKey
      then seq (minted (ledger s)) (minted (ledger (step s a)) - minted (ledger s))
      else []
  | _ => []
  end.

(** The ApplicationIds minted for a key over a run of the dispatcher. *)
Fixpoint minted_for (naturalKey : string) (actions : list Action) (s : State) : list nat :=
  match actions with
  | [] => []
  | a :: rest => minted_in naturalKey s a ++ minted_for naturalKey rest (step s a)
  end.

(** The answer of the ledger to one action, if that is a delivery of the
    key. *)
Definition answer_to (naturalKey : string) (s : State) (a : Action) : list Admission :=
  match a with
  | Deliver now k =>
      if String.eqb k naturalKey then [(beginOrReject now k (ledger s)).1] else []
  | _ => []
  end.

(** The answers of the ledger to the deliveries of a key, in order. *)
Fixpoint admissions (naturalKey : string) (actions : list Action) (s : State)
  : list Admission :=
  match actions with
  | [] => []
  | a :: rest => answer_to naturalKey s a ++ admissions naturalKey rest (step s a)
  end.





Definition empty_state : State :=
  {| ledger := {| entries := ∅; minted := 0 |}; started := [] |}.



End Dispatcher.

(** ** More on the state machine: transitions, sleeping time *)

(** The states a state can hand over to: its Next and the Next of each of
    its catchers. *)
Definition targets (s : State) : list string :=
  match s with
  | Task t =>
      match transition t with
      | Next n => [n]
      | End_ => []
      end ++ map Catcher.Next (Catch t)
  | Fail _ => []
  end.

(** Position of each state of the definition along its transitions; a name
    that is not a state gets 5. *)
Definition state_rank (name : string) : nat :=
  if String.eqb name CLEAN then 0
  else if String.eqb name SCORE then 1
  else if String.eqb name PERSIST then 2
  else if String.eqb name DLQ then 3
  else if String.eqb name "ProcessingFailed" then 4
  else 5.

(** Seconds slept in backoff by one state. *)
Definition total_sleep (name : string) (evs : list Event) : Q :=
  foldr Qplus 0%Q (map snd (sleeps name evs)).

(** The most a stage can sleep in all: 3 + 4.5 seconds for CLEAN,
    5 + 10 + 20 seconds for SCORE and PERSIST. *)
Definition sleep_budget (st : Stage) : Q :=
  match st with
  | Clean => 15 # 2
  | Score => 35
  | Persist => 35
  end.

(** Where a stage hands over on success, given the state it ran on and the
    output of its function. *)
Definition success_step (st : Stage) (m : gmap string json) (v : json) : Step :=
  match st with
  | Clean => Goto SCORE v
  | Score => Goto PERSIST (JObj (<["risk_score" := v]> m))
  | Persist => Finish (Succeeded v)
  end.

(** A scoring service that is slow once: the first call takes 61 seconds,
    the others one second. *)
Definition score_slow : World :=
  {| respond := fun resource n _ =>
       if String.eqb resource (Resource CallScoringService)
       then {| elapsed := if (n =? 0)%nat then 61 else 1; reply := Returned (JNum (1 # 2)) |}
       else {| elapsed := 1; reply := Returned (JObj {[ "features_for_scoring" := JObj ∅ ]}) |};
     jitter := fun _ _ => 1%Q |}.

(** A scoring service that fails twice with a retryable error, then
    answers. *)
Definition score_flaky : World :=
  {| respond := fun resource n _ =>
       {| elapsed := 1;
          reply := if (n <? 2)%nat
                   then Raised "Lambda.TooManyRequestsException" "throttled"
                   else Returned (JNum (1 # 4)) |};
     jitter := fun _ _ => 1%Q |}.

(** The run of [all_up] on the sample application. *)
Definition all_up_trace : list Event :=
  Eval vm_compute in
    match execute riskEvaluation all_up (JObj application) with
    | Some (evs, _) => evs
    | None => []
    end.

Definition all_up_result : Result :=
  Eval vm_compute in
    match execute riskEvaluation all_up (JObj application) with
    | Some (_, r) => r
    | None => Aborted ""
    end.

(** The run of [score_down] on the sample application. *)
Definition score_down_trace : list Event :=
  Eval vm_compute in
    match execute riskEvaluation score_down (JObj application) with
    | Some (evs, _) => evs
    | None => []
    end.

(** [rank] orders the states of [m] along its transitions: every target of
    a state is a state of [m], of higher rank. *)
Definition ranked (m : StateMachine) (rank : string -> nat) : Prop :=
  forall name s next,
    States m !! name = Some s -> next ∈ targets s ->
    is_Some (States m !! next) /\ (rank name < rank next)%nat.

(** The states of the function invocations and of the backoff sleeps of a
    trace, in order. *)
Definition calls (evs : list Event) : list string :=
  omap (fun ev => match ev with Invoked s _ _ _ => Some s | _ => None end) evs.

Definition naps (evs : list Event) : list string :=
  omap (fun ev => match ev with Slept s _ _ => Some s | _ => None end) evs.

(** ** The dashboard: page controls, [paginationControls.jsx] *)

Module Pagination.

Definition maxPagesToShow : Z := 5.

(** [Math.max(1, currentPage - Math.floor(maxPagesToShow / 2))]. *)
Definition firstStartPage (currentPage : Z) : Z :=
  Z.max 1 (currentPage - maxPagesToShow / 2).

(** [Math.min(totalPages, startPage + maxPagesToShow - 1)]. *)
Definition endPage (currentPage totalPages : Z) : Z :=
  Z.min totalPages (firstStartPage currentPage + maxPagesToShow - 1).

(** The start of the window, after the adjustment made when the window
    would be short of [maxPagesToShow] pages. *)
Definition startPage (currentPage totalPages : Z) : Z :=
  if (totalPages >? maxPagesToShow)%Z
     && (endPage currentPage totalPages - firstStartPage currentPage + 1 <? maxPagesToShow)%Z
  then Z.max 1 (endPage currentPage totalPages - maxPagesToShow + 1)
  else firstStartPage currentPage.

(** [for (let i = startPage; i <= endPage; i++) pageNumbers.push(i)]. *)
Definition pageNumbers (currentPage totalPages : Z) : list Z :=
  seqZ (startPage currentPage totalPages)
       (endPage currentPage totalPages - startPage currentPage totalPages + 1).

Inductive Label : Type :=
| Previous
| NextPage
| PageNumber (n : Z).

(** What the component renders: buttons, each with the page its click
    handler passes to [onPageChange] (if it calls it at all) and its
    [disabled] attribute, and the spans that show [...]. *)
Inductive Element : Type :=
| Button (label : Label) (onClick : option Z) (disabled : bool)
| Ellipsis.

Definition handlePrevious (currentPage : Z) : option Z :=
  if (currentPage >? 1)%Z then Some (currentPage - 1)%Z else None.

Definition handleNext (currentPage totalPages : Z) : option Z :=
  if (currentPage <? totalPages)%Z then Some (currentPage + 1)%Z else None.

Definition PaginationControls (currentPage totalPages : Z) : option (list Element) :=
  if (totalPages <=? 1)%Z then None
  else
    let startPage := startPage currentPage totalPages in
    let endPage := endPage currentPage totalPages in
    Some ([Button Previous (handlePrevious currentPage) (currentPage =? 1)%Z]
          ++ (if (startPage >? 1)%Z
              then Button (PageNumber 1) (Some 1%Z) false
                   :: (if (startPage >? 2)%Z then [Ellipsis] else [])
              else [])
          ++ ((fun number => Button (PageNumber number) (Some number)
                               (currentPage =? number)%Z)
                <$> pageNumbers currentPage totalPages)
          ++ (if (endPage <? totalPages)%Z
              then (if (endPage <? totalPages - 1)%Z then [Ellipsis] else [])
                   ++ [Button (PageNumber totalPages) (Some totalPages) false]
              else [])
          ++ [Button NextPage (handleNext currentPage totalPages)
                (currentPage =? totalPages)%Z]).

(** The page a click on an element asks for; a disabled button fires no
    click, an ellipsis has no handler. *)
Definition click (e : Element) : option Z :=
  match e with
  | Button _ onClick disabled => if disabled then None else onClick
  | Ellipsis => None
  end.

(** The pages that have a numbered button, in the order of the buttons. *)
Definition numbered (es : list Element) : list Z :=
  omap (fun e => match e with
                 | Button (PageNumber n) _ _ => Some n
                 | _ => None
                 end) es.

(** What stands between Previous and Next: a page number, or [None] for an
    ellipsis. *)
Definition strip (es : list Element) : list (option Z) :=
  omap (fun e => match e with
                 | Button (PageNumber n) _ _ => Some (Some n)
                 | Ellipsis => Some None
                 | _ => None
                 end) es.

(** The controls on page 7 of 9. *)
Definition controls_7_of_9 : list Element :=
  [Button Previous (Some 6%Z) false;
   Button (PageNumber 1) (Some 1%Z) false;
   Ellipsis;
   Button (PageNumber 5) (Some 5%Z) false;
   Button (PageNumber 6) (Some 6%Z) false;
   Button (PageNumber 7) (Some 7%Z) true;
   Button (PageNumber 8) (Some 8%Z) false;
   Button (PageNumber 9) (Some 9%Z) false;
   Button NextPage (Some 8%Z) false].

End Pagination.

(** [Math.ceil(n / d)] on integers, for a positive [d]; the quotient of two
    array-sized integers is far from the precision at which the float division
    could round a fraction to a whole number. *)
Definition ceil_div (n d : Z) : Z := (- ((- n) / d))%Z.

(** ** The dashboard: the applications table, [applicationTable.jsx] *)

Module ApplicationsTable.

(** [Array.prototype.slice(start, end)]: negative indices count from the
    end, and both are clamped to the array. *)
Definition slice {A : Type} (l : list A) (start end_ : Z) : list A :=
  let len := Z.of_nat (length l) in
  let k := if (start <? 0)%Z then Z.max (len + start) 0 else Z.min start len in
  let final := if (end_ <? 0)%Z then Z.max (len + end_) 0 else Z.min end_ len in
  take (Z.to_nat (final - k)) (drop (Z.to_nat k) l).

(** The effect that fills [displayedApps] from the page shown. *)
Definition displayedApps {A : Type} (allFetchedApps : list A) (currentPage itemsPerPage : Z)
  : list A :=
  if (Z.of_nat (length allFetchedApps) >? 0)%Z then
    let startIndex := ((currentPage - 1) * itemsPerPage)%Z in
    let endIndex := (startIndex + itemsPerPage)%Z in
    slice allFetchedApps startIndex endIndex
  else [].

Definition apiPageLimit : Z := 1000.

(** What [queryPaginatedList] resolves to, as far as [fetchAllPages] looks
    at it: [applications] when it is an array, and [totalCount] when it is a
    number ([undefined] and [null] both leave the count unknown).
    [queryPaginatedList] resolves in every case, with an object without
    [applications] when the request fails. *)
Record Response (A : Type) : Type := {
  applications : option (list A);
  totalCount : option Z
}.

Arguments applications {A} _.
Arguments totalCount {A} _.

(** The state of the table once loading has finished, with the offsets
    that were requested, in order. *)
Record Loaded (A : Type) : Type := {
  allFetchedApps : list A;
  totalPages : Z;
  requests : list Z
}.

Arguments allFetchedApps {A} _.
Arguments totalPages {A} _.
Arguments requests {A} _.

Definition requested {A : Type} (offset : Z) (r : Loaded A) : Loaded A :=
  {| allFetchedApps := allFetchedApps r;
     totalPages := totalPages r;
     requests := offset :: requests r |}.

(** [fetchAllPages]: the API is a function of the offset requested; the
    recursion is bounded by [fuel], and [None] means it has not finished. *)
Fixpoint fetchAllPages {A : Type} (fuel : nat) (api : Z -> Response A) (itemsPerPage : Z)
    (accumulatedApps : list A) (currentOffset : Z) (totalCountFromApi : option Z)
  : option (Loaded A) :=
  match fuel with
  | O => None
  | S fuel =>
      let response := api currentOffset in
      match applications response with
      | Some apps =>
          let newAccumulatedApps := accumulatedApps ++ apps in
          let totalCountFromApi :=
            if (currentOffset =? 0)%Z
            then match totalCount response with
                 | Some t => Some t
                 | None => totalCountFromApi
                 end
            else totalCountFromApi in
          let newOffset := (currentOffset + Z.of_nat (length apps))%Z in
          let hasMoreData :=
            (Z.of_nat (length apps) =? apiPageLimit)%Z
            && match totalCountFromApi with
               | None => true
               | Some t => (newOffset <? t)%Z
               end in
          if hasMoreData
          then requested currentOffset
                 <$> fetchAllPages fuel api itemsPerPage newAccumulatedApps newOffset
                       totalCountFromApi
          else Some {| allFetchedApps := newAccumulatedApps;
                       totalPages :=
                         ceil_div (Z.of_nat (length newAccumulatedApps)) itemsPerPage;
                       requests := [currentOffset] |}
      | None =>
          Some {| allFetchedApps := accumulatedApps;
                  totalPages := ceil_div (Z.of_nat (length accumulatedApps)) itemsPerPage;
                  requests := [currentOffset] |}
      end
  end.

(** [loadAllData] starts the fetch from offset 0 with nothing accumulated. *)
Definition loadAllData {A : Type} (fuel : nat) (api : Z -> Response A) (itemsPerPage : Z)
  : option (Loaded A) :=
  fetchAllPages fuel api itemsPerPage [] 0 None.

(** The applications a response carries, none when it has no array. *)
Definition page {A : Type} (api : Z -> Response A) (offset : Z) : list A :=
  default [] (applications (api offset)).

(** The page controls under the table:
    [allFetchedApps.length > 0 && totalPages > 1 && <PaginationControls .../>]. *)
Definition tableControls {A : Type} (r : Loaded A) (currentPage : Z)
  : option (list Pagination.Element) :=
  if (Z.of_nat (length (allFetchedApps r)) >? 0)%Z && (totalPages r >? 1)%Z
  then Pagination.PaginationControls currentPage (totalPages r)
  else None.

(** An API that serves [total] records, [cap] at a time at most. *)
Definition serving (total cap : Z) (offset : Z) : Response Z :=
  {| applications :=
       Some (seqZ offset (Z.min (Z.min cap apiPageLimit) (total - offset)));
     totalCount := Some total |}.

(** An API that fills every page and reports no count. *)
Definition endless (offset : Z) : Response Z :=
  {| applications := Some (seqZ offset apiPageLimit); totalCount := None |}.

End ApplicationsTable.

(** ** The dashboard: the graphs *)

Module Graphs.

(** The step of the count axis of the risk graph, from the [count] of each
    bucket (a whole number):
    [Math.max(1, Math.ceil(Math.max(0, ...counts) / 10))]. *)
Definition riskGraph_stepSize (counts : list Z) : Z :=
  Z.max 1 (ceil_div (foldr Z.max 0%Z counts) 10).

(** The step of the count axis of the count graph, which is drawn only when
    there is data, [count :: counts]:
    [Math.max(1, Math.ceil(Math.max(...counts) / 10))]. *)
Definition countGraph_stepSize (count : Z) (counts : list Z) : Z :=
  Z.max 1 (ceil_div (foldr Z.max count counts) 10).

End Graphs.

(** ** The risk level, between the table and the dashboard *)

(** The text the generated column [risk_level VARCHAR(6)] holds. *)
Definition risk_level_text (l : Store.RiskLevel) : string :=
  match l with
  | Store.HIGH => "HIGH"
  | Store.MEDIUM => "MEDIUM"
  | Store.LOW => "LOW"
  end.

Definition risk_level_width : nat := 6.

(** The values of the options of the risk level filter of the dashboard;
    the empty one stands for all levels. *)
Definition riskLevelOptions : list string := [""; "LOW"; "MEDIUM"; "HIGH"].

(** The levels in order of risk. *)
Definition risk_rank (l : Store.RiskLevel) : nat :=
  match l with
  | Store.LOW => 0
  | Store.MEDIUM => 1
  | Store.HIGH => 2
  end.

(** * Part II: properties *)

Example get_path_ex :
  get_path ["a"; "b"] (JObj {[ "a" := JObj {[ "b" := JStr "x" ]} ]}) = Some (JStr "x").
Proof. vm_compute. reflexivity. Qed.

Example set_path_ex :
  set_path ["r"] (JBool true) (JObj {[ "a" := JNull ]}) = Some (JObj (<["r" := JBool true]> {[ "a" := JNull ]})).
Proof. vm_compute. reflexivity. Qed.

(** ** The retry loop *)

Lemma next_retry_budget rs e r k rs' :
  next_retry rs e = Some (r, k, rs') -> budget rs = S (budget rs').
Proof.
  revert r k rs'. induction rs as [|[r0 used] rs IH]; intros r k rs' H; simpl in H.
  - discriminate.
  - destruct (error_matches (Retrier.ErrorEquals r0) e).
    + destruct (Nat.ltb_spec used (Retrier.MaxAttempts r0)); [|discriminate].
      injection H as <- <- <-. simpl. lia.
    + destruct (next_retry rs e) as [[[r1 k1] rs1]|] eqn:E; [|discriminate].
      injection H as <- <- <-. simpl. rewrite (IH _ _ _ eq_refl). lia.
Qed.

Lemma run_attempts_total fuel w name t input rs n :
  (budget rs < fuel)%nat ->
  exists evs o, run_attempts fuel w name t input rs n = Some (evs, o).
Proof.
  revert rs n. induction fuel as [|fuel IH]; intros rs n Hlt; [lia|].
  simpl. destruct (attempt_outcome t _) as [v|e c]; [eauto|].
  destruct (next_retry rs e) as [[[r k] rs']|] eqn:E; [|eauto].
  apply next_retry_budget in E.
  destruct (IH rs' (S n)) as (evs & o & ->); [lia|]. eauto.
Qed.

Lemma task_attempts_total w name t input :
  exists evs o, task_attempts w name t input = Some (evs, o).
Proof. apply run_attempts_total. lia. Qed.

Lemma run_attempts_events fuel w name t input rs n evs o :
  run_attempts fuel w name t input rs n = Some (evs, o) ->
  events_of name input evs.
Proof.
  revert rs n evs o. induction fuel as [|fuel IH]; intros rs n evs o H; [discriminate|].
  simpl in H. destruct (attempt_outcome t _) as [v|e c].
  - injection H as <- <-. repeat constructor.
  - destruct (next_retry rs e) as [[[r k] rs']|].
    + destruct (run_attempts fuel w name t input rs' (S n)) as [[evs' o']|] eqn:E;
        [|discriminate].
      injection H as <- <-. repeat constructor. eapply IH, E.
    + injection H as <- <-. repeat constructor.
Qed.

Lemma events_of_entered name input evs : events_of name input evs -> entered evs = [].
Proof.
  induction 1 as [|ev evs Hev _ IH]; [done|].
  destruct ev; simpl in *; [done | exact IH | exact IH].
Qed.

Lemma events_of_invocations_ne name input evs other :
  events_of name input evs -> other <> name -> invocations other evs = [].
Proof.
  intros H Hne. induction H as [|ev evs Hev _ IH]; [done|].
  destruct ev as [s|s a i o|s k d]; simpl in *; try exact IH.
  destruct Hev as [-> _]. destruct (String.eqb_spec name other); [congruence|exact IH].
Qed.

Lemma events_of_sleeps_ne name input evs other :
  events_of name input evs -> other <> name -> sleeps other evs = [].
Proof.
  intros H Hne. induction H as [|ev evs Hev _ IH]; [done|].
  destruct ev as [s|s a i o|s k d]; simpl in *; try exact IH.
  subst s. destruct (String.eqb_spec name other); [congruence|exact IH].
Qed.

Lemma next_retry_retriers rs e r k rs' :
  next_retry rs e = Some (r, k, rs') ->
  map fst rs' = map fst rs /\ retryable (map fst rs) e = true.
Proof.
  revert r k rs'. induction rs as [|[r0 used] rs IH]; intros r k rs' H; simpl in H.
  - discriminate.
  - unfold retryable. simpl. destruct (error_matches (Retrier.ErrorEquals r0) e).
    + destruct (used <? Retrier.MaxAttempts r0)%nat; [|discriminate].
      injection H as <- <- <-. done.
    + destruct (next_retry rs e) as [[[r1 k1] rs1]|] eqn:E; [|discriminate].
      injection H as <- <- <-. destruct (IH _ _ _ eq_refl) as [Hm Hr].
      simpl. rewrite Hm. done.
Qed.

(** The outcomes of the loop are a run of failures the retriers accepted,
    closed by the outcome it returns; there are as many sleeps as retries. *)
Lemma run_attempts_invocations fuel w name t input rs n evs o :
  run_attempts fuel w name t input rs n = Some (evs, o) ->
  exists fs,
    invocations name evs = map (fun f => (input, f)) (fs ++ [o])
    /\ Forall (fun f => exists e c, f = Failure e c /\ retryable (map fst rs) e = true) fs
    /\ (length fs <= budget rs)%nat
    /\ length (sleeps name evs) = length fs.
Proof.
  revert rs n evs o. induction fuel as [|fuel IH]; intros rs n evs o H; [discriminate|].
  simpl in H. destruct (attempt_outcome t _) as [v|e c] eqn:Eo.
  - injection H as <- <-. exists []. simpl. rewrite String.eqb_refl.
    repeat split; [constructor | lia].
  - destruct (next_retry rs e) as [[[r k] rs']|] eqn:En.
    + destruct (run_attempts fuel w name t input rs' (S n)) as [[evs' o']|] eqn:E;
        [|discriminate].
      injection H as <- <-. apply IH in E as (fs & Hinv & Hfs & Hlen & Hsl).
      pose proof (next_retry_budget _ _ _ _ _ En) as Hb.
      apply next_retry_retriers in En as [Hm Hr]. rewrite Hm in Hfs.
      exists (Failure e c :: fs). simpl. rewrite String.eqb_refl. simpl.
      rewrite Hinv. repeat split; [constructor; eauto | lia | lia].
    + injection H as <- <-. exists []. simpl. rewrite String.eqb_refl.
      repeat split; [constructor | lia].
Qed.

(** ** The five states of the definition, one by one *)

Lemma riskEvaluation_size : size (States riskEvaluation) = 5%nat.
Proof. vm_compute. reflexivity. Qed.

Lemma state_clean : States riskEvaluation !! CLEAN = Some (Task CleanAndFeatureEngineer).
Proof. vm_compute. reflexivity. Qed.

Lemma state_score : States riskEvaluation !! SCORE = Some (Task CallScoringService).
Proof. vm_compute. reflexivity. Qed.

Lemma state_persist : States riskEvaluation !! PERSIST = Some (Task PersistScoredApplication).
Proof. vm_compute. reflexivity. Qed.

Lemma state_dlq : States riskEvaluation !! DLQ = Some (Task SendToDLQ).
Proof. vm_compute. reflexivity. Qed.

Lemma state_failed : States riskEvaluation !! "ProcessingFailed" = Some (Fail ProcessingFailed).
Proof. vm_compute. reflexivity. Qed.

Lemma find_catch_all p next e : find_catcher [catch_all p next] e = Some (catch_all p next).
Proof. reflexivity. Qed.

Lemma dlq_task_input exec_input m info :
  m !! "errorInfo" = Some info ->
  task_input exec_input SendToDLQ (JObj m) = Some (dlq_message info exec_input).
Proof. intros H. unfold task_input. simpl. rewrite H. reflexivity. Qed.

Lemma error_info_cause e c : get_path ["Cause"] (error_info e c) = Some (JStr c).
Proof.
  unfold error_info. simpl.
  rewrite lookup_insert_ne by discriminate. rewrite lookup_insert_eq. reflexivity.
Qed.

Lemma exec_task_catch_all w exec_input name t data input p next :
  task_input exec_input t data = Some input ->
  Catch t = [catch_all p next] ->
  exists evs o,
    task_attempts w name t input = Some (evs, o)
    /\ exec_task w exec_input name t data = Some (evs, after_task t p next data o).
Proof.
  intros Hin Hc. destruct (task_attempts_total w name t input) as (evs & o & Ht).
  exists evs, o. split; [exact Ht|].
  unfold exec_task. rewrite Hin, Ht, Hc.
  destruct o as [v|e c]; simpl.
  - destruct (set_path (ResultPath t) v data); reflexivity.
  - destruct (set_path p (error_info e c) data); reflexivity.
Qed.

Lemma run_unfold fuel m w exec_input cur data :
  run (S fuel) m w exec_input cur data =
  match States m !! cur with
  | None => Some ([], Aborted "States.Runtime")
  | Some (Fail f) => Some ([Entered cur], exec_fail f data)
  | Some (Task t) =>
      match exec_task w exec_input cur t data with
      | None => None
      | Some (evs, Finish r) => Some (Entered cur :: evs, r)
      | Some (evs, Goto next data') =>
          match run fuel m w exec_input next data' with
          | Some (evs', r) => Some (Entered cur :: evs ++ evs', r)
          | None => None
          end
      end
  end.
Proof. reflexivity. Qed.

(** ** The shape of every execution *)

(** From SendToDLQ on, with the caught error stored under [errorInfo]. *)
Lemma run_dead_letter fuel w exec_input m e c :
  m !! "errorInfo" = Some (error_info e c) ->
  exists evs r,
    run (S (S fuel)) riskEvaluation w exec_input DLQ (JObj m) = Some (evs, r)
    /\ DeadLettered w exec_input e c evs r.
Proof.
  intros Hm. rewrite run_unfold, state_dlq.
  destruct (exec_task_catch_all w exec_input DLQ SendToDLQ (JObj m)
              (dlq_message (error_info e c) exec_input)
              ["sendToDlqErrorDetails"] "ProcessingFailed")
    as (aD & oD & Ht & ->); [by apply dlq_task_input | reflexivity |].
  assert (exists m', after_task SendToDLQ ["sendToDlqErrorDetails"] "ProcessingFailed"
                       (JObj m) oD = Goto "ProcessingFailed" (JObj m')
                     /\ m' !! "errorInfo" = Some (error_info e c)) as (m' & -> & Hm').
  { destruct oD as [v|e' c']; simpl; eexists; (split; [reflexivity|]);
      rewrite lookup_insert_ne by discriminate; exact Hm. }
  rewrite run_unfold, state_failed.
  eexists _, _. split; [reflexivity|].
  unfold exec_fail. change (CausePath ProcessingFailed) with ["errorInfo"; "Cause"].
  change (get_path ["errorInfo"; "Cause"] (JObj m'))
    with (match m' !! "errorInfo" with
          | Some child => get_path ["Cause"] child | None => None end).
  rewrite Hm', error_info_cause. simpl. econstructor. exact Ht.
Qed.

Lemma after_caught t next m e c :
  after_task t ["errorInfo"] next (JObj m) (Failure e c)
  = Goto next (JObj (<["errorInfo" := error_info e c]> m)).
Proof. reflexivity. Qed.

Lemma after_clean_success p next data out :
  after_task CleanAndFeatureEngineer p next data (Success out) = Goto SCORE out.
Proof. reflexivity. Qed.

Lemma after_score_success p next cm s :
  after_task CallScoringService p next (JObj cm) (Success s)
  = Goto PERSIST (JObj (<["risk_score" := s]> cm)).
Proof. reflexivity. Qed.

Lemma after_persist_success p next data out :
  after_task PersistScoredApplication p next data (Success out) = Finish (Succeeded out).
Proof. reflexivity. Qed.

Lemma score_task_input exec_input out :
  task_input exec_input CallScoringService out = get_path ["features_for_scoring"] out.
Proof.
  unfold task_input. change (InputPath CallScoringService) with ["features_for_scoring"].
  destruct (get_path _ out); reflexivity.
Qed.

Lemma get_field_inv k doc v :
  get_path [k] doc = Some v -> exists m, doc = JObj m /\ m !! k = Some v.
Proof.
  destruct doc as [| | | | |m]; simpl; try discriminate.
  destruct (m !! k) eqn:E; [|discriminate]. intros [= <-]. eauto.
Qed.

(** Every execution on a JSON object terminates, in one of the five shapes
    of [Execution]. *)
Theorem execute_Execution w fields :
  exists evs r,
    execute riskEvaluation w (JObj fields) = Some (evs, r)
    /\ Execution w fields evs r.
Proof.
  unfold execute. rewrite riskEvaluation_size.
  change (StartAt riskEvaluation) with CLEAN.
  rewrite run_unfold, state_clean.
  destruct (exec_task_catch_all w (JObj fields) CLEAN CleanAndFeatureEngineer
              (JObj fields) (JObj fields) ["errorInfo"] DLQ)
    as (aC & oC & HC & ->); [reflexivity | reflexivity |].
  destruct oC as [out|e c].
  - rewrite after_clean_success, run_unfold, state_score.
    destruct (get_path ["features_for_scoring"] out) as [f|] eqn:Hf.
    + apply get_field_inv in Hf as (cm & -> & Hf).
      destruct (exec_task_catch_all w (JObj fields) SCORE CallScoringService
                  (JObj cm) f ["errorInfo"] DLQ)
        as (aS & oS & HS & ->);
        [rewrite score_task_input; simpl; by rewrite Hf | reflexivity |].
      destruct oS as [s|e c].
      * rewrite after_score_success, run_unfold, state_persist.
        set (data := JObj (<["risk_score" := s]> cm)).
        destruct (exec_task_catch_all w (JObj fields) PERSIST PersistScoredApplication
                    data data ["errorInfo"] DLQ)
          as (aP & oP & HP & ->); [reflexivity | reflexivity |].
        destruct oP as [out|e c].
        -- rewrite after_persist_success. eexists _, _. split; [reflexivity|].
           eapply exec_succeeded; eauto.
        -- subst data. rewrite after_caught.
           edestruct (run_dead_letter 0 w (JObj fields)) as (tl & r & -> & HD);
             [apply lookup_insert_eq|].
           eexists _, _. split; [reflexivity|].
           eapply exec_persist_failed; eauto.
      * rewrite after_caught.
        edestruct (run_dead_letter 1 w (JObj fields)) as (tl & r & -> & HD);
          [apply lookup_insert_eq|].
        eexists _, _. split; [reflexivity|].
        eapply exec_score_failed; eauto.
    + unfold exec_task. rewrite score_task_input, Hf.
      eexists _, _. split; [reflexivity|].
      eapply exec_no_features; eauto.
  - rewrite after_caught.
    edestruct (run_dead_letter 2 w (JObj fields)) as (tl & r & -> & HD);
      [apply lookup_insert_eq|].
    eexists _, _. split; [reflexivity|].
    eapply exec_clean_failed; eauto.
Qed.

Corollary execute_inv w fields evs r :
  execute riskEvaluation w (JObj fields) = Some (evs, r) -> Execution w fields evs r.
Proof.
  intros H. destruct (execute_Execution w fields) as (evs' & r' & H' & HE).
  rewrite H in H'. by injection H' as <- <-.
Qed.

(** ** Traces of the retry loop, stage by stage *)

Lemma entered_app a b : entered (a ++ b) = entered a ++ entered b.
Proof. apply omap_app. Qed.


Lemma invocations_app name a b :
  invocations name (a ++ b) = invocations name a ++ invocations name b.
Proof. apply omap_app. Qed.

Lemma task_attempts_events w name t input evs o :
  task_attempts w name t input = Some (evs, o) -> events_of name input evs.
Proof. apply run_attempts_events. Qed.

Lemma task_attempts_entered w name t input evs o :
  task_attempts w name t input = Some (evs, o) -> entered evs = [].
Proof. intros H. eapply events_of_entered, task_attempts_events, H. Qed.

Lemma stage_log_events_of name input evs :
  events_of name input evs ->
  stage_log evs =
  match stage_of name with
  | Some st => map (fun io => (st, is_success io.2)) (invocations name evs)
  | None => []
  end.
Proof.
  induction 1 as [|ev evs Hev _ IH].
  - by destruct (stage_of name).
  - destruct ev as [s|s a i o|s k d]; simpl in *; try exact IH.
    destruct Hev as [-> ->]. rewrite String.eqb_refl.
    destruct (stage_of name); simpl; by rewrite IH.
Qed.


Lemma task_attempts_dlq_log w input evs o :
  task_attempts w DLQ SendToDLQ input = Some (evs, o) ->
  stage_log evs = [] /\ entered evs = []
  /\ evs = [Invoked DLQ 0 input o].
Proof.
  intros H. pose proof (task_attempts_events _ _ _ _ _ _ H) as Hev.
  split; [by rewrite (stage_log_events_of _ _ _ Hev)|].
  split; [by eapply events_of_entered|].
  unfold task_attempts in H. simpl in H.
  destruct (attempt_outcome SendToDLQ _); by injection H as <- <-.
Qed.






Lemma dead_lettered_inv w exec_input e c tl r :
  DeadLettered w exec_input e c tl r ->
  r = Failed APP_FAILED c
  /\ exists o, tl = [Entered DLQ;
                    Invoked DLQ 0 (dlq_message (error_info e c) exec_input) o;
                    Entered "ProcessingFailed"]
               /\ o = attempt_outcome SendToDLQ
                        (respond w (Resource SendToDLQ) 0
                           (dlq_message (error_info e c) exec_input)).
Proof.
  intros [aD oD H]. split; [reflexivity|]. exists oD.
  unfold task_attempts in H. simpl in H.
  destruct (attempt_outcome SendToDLQ _) eqn:E; by injection H as <- <-.
Qed.


(** ** The failure path *)

Lemma run_attempts_last fuel w name t input rs n evs o :
  run_attempts fuel w name t input rs n = Some (evs, o) ->
  exists pre n', evs = pre ++ [Invoked name n' input o].
Proof.
  revert rs n evs o. induction fuel as [|fuel IH]; intros rs n evs o H; [discriminate|].
  simpl in H. destruct (attempt_outcome t _) as [v|e c].
  - injection H as <- <-. by exists [], n.
  - destruct (next_retry rs e) as [[[r k] rs']|].
    + destruct (run_attempts fuel w name t input rs' (S n)) as [[evs' o']|] eqn:E;
        [|discriminate].
      injection H as <- <-. apply IH in E as (pre & n' & ->).
      eexists (_ :: _ :: pre), n'. reflexivity.
    + injection H as <- <-. by exists [], n.
Qed.

Lemma last_app_some {A} (l1 l2 : list A) x : last l2 = Some x -> last (l1 ++ l2) = Some x.
Proof.
  intros H. destruct l2 as [|y l2]; [discriminate|]. by rewrite last_app_cons.
Qed.

Lemma stage_calls_app a b : stage_calls (a ++ b) = stage_calls a ++ stage_calls b.
Proof. apply omap_app. Qed.

Lemma sleeps_app name a b : sleeps name (a ++ b) = sleeps name a ++ sleeps name b.
Proof. apply omap_app. Qed.

Lemma task_attempts_last_call w name t input evs o st :
  task_attempts w name t input = Some (evs, o) ->
  stage_of name = Some st ->
  last (stage_calls evs) = Some (name, o).
Proof.
  intros H Hst. apply run_attempts_last in H as (pre & n' & ->).
  rewrite stage_calls_app. simpl. rewrite Hst. apply last_snoc.
Qed.

Lemma task_attempts_no_dlq w name t input evs o :
  task_attempts w name t input = Some (evs, o) ->
  name <> DLQ ->
  invocations DLQ evs = [] /\ sleeps DLQ evs = [].
Proof.
  intros H Hne. apply task_attempts_events in H. split.
  - eapply events_of_invocations_ne; [exact H | congruence].
  - eapply events_of_sleeps_ne; [exact H | congruence].
Qed.

(** An execution that ends in a Fail state went through SendToDLQ exactly
    once, with the message built from the error of the stage that failed. *)
Lemma execution_failed w fields evs r e0 c0 :
  Execution w fields evs r ->
  r = Failed e0 c0 ->
  exists pre name e o,
    e0 = APP_FAILED
    /\ evs = pre ++ dlq_tail (dlq_message (error_info e c0) (JObj fields)) o
    /\ is_Some (stage_of name)
    /\ last (stage_calls pre) = Some (name, Failure e c0)
    /\ invocations DLQ pre = [] /\ sleeps DLQ pre = []
    /\ o = attempt_outcome SendToDLQ
             (respond w (Resource SendToDLQ) 0
                (dlq_message (error_info e c0) (JObj fields))).
Proof.
  intros HE Hr.
  destruct HE as [aC e c tl r HC HD | aC out HC Hf | aC cm f aS e c tl r HC Hf HS HD
                 | aC cm f aS s aP e c tl r HC Hf HS HP HD | aC cm f aS s aP out HC Hf HS HP];
    try discriminate;
    apply dead_lettered_inv in HD as (-> & oD & -> & HoD); injection Hr as <- <-;
    pose proof (task_attempts_no_dlq _ _ _ _ _ _ HC ltac:(discriminate)) as [HiC HsC];
    pose proof (task_attempts_last_call _ _ _ _ _ _ Clean HC eq_refl) as HlC.
  - exists (Entered CLEAN :: aC), CLEAN, e, oD. simpl. rewrite HiC, HsC. eauto 12.
  - pose proof (task_attempts_no_dlq _ _ _ _ _ _ HS ltac:(discriminate)) as [HiS HsS].
    pose proof (task_attempts_last_call _ _ _ _ _ _ Score HS eq_refl) as HlS.
    exists (Entered CLEAN :: aC ++ Entered SCORE :: aS), SCORE, e, oD.
    change (Entered CLEAN :: aC ++ Entered SCORE :: aS)
      with ([Entered CLEAN] ++ aC ++ [Entered SCORE] ++ aS).
    rewrite !stage_calls_app, !invocations_app, !sleeps_app, HiC, HsC, HiS, HsS.
    split; [reflexivity|]. split; [by rewrite <- !app_assoc|].
    split; [by eexists|]. split; [|done].
    do 3 apply last_app_some. exact HlS.
  - pose proof (task_attempts_no_dlq _ _ _ _ _ _ HS ltac:(discriminate)) as [HiS HsS].
    pose proof (task_attempts_no_dlq _ _ _ _ _ _ HP ltac:(discriminate)) as [HiP HsP].
    pose proof (task_attempts_last_call _ _ _ _ _ _ Persist HP eq_refl) as HlP.
    exists (Entered CLEAN :: aC ++ Entered SCORE :: aS ++ Entered PERSIST :: aP),
      PERSIST, e, oD.
    change (Entered CLEAN :: aC ++ Entered SCORE :: aS ++ Entered PERSIST :: aP)
      with ([Entered CLEAN] ++ aC ++ [Entered SCORE] ++ aS ++ [Entered PERSIST] ++ aP).
    rewrite !stage_calls_app, !invocations_app, !sleeps_app, HiC, HsC, HiS, HsS, HiP, HsP.
    split; [reflexivity|]. split; [by rewrite <- !app_assoc|].
    split; [by eexists|]. split; [|done].
    do 5 apply last_app_some. exact HlP.
Qed.


(** ** Answers of the world, and the endings without a dead letter *)

Lemma run_attempts_answered fuel w name t input rs n evs o :
  States riskEvaluation !! name = Some (Task t) ->
  run_attempts fuel w name t input rs n = Some (evs, o) ->
  answered w evs.
Proof.
  intros Hst. revert rs n evs o.
  induction fuel as [|fuel IH]; intros rs n evs o H; [discriminate|].
  simpl in H. destruct (attempt_outcome t _) as [v|e c] eqn:Eo.
  - injection H as <- <-. constructor; [|constructor]. exists t. by rewrite <- Eo.
  - destruct (next_retry rs e) as [[[r k] rs']|].
    + destruct (run_attempts fuel w name t input rs' (S n)) as [[evs' o']|] eqn:E;
        [|discriminate].
      injection H as <- <-. constructor; [exists t; by rewrite <- Eo|].
      constructor; [exact I|]. by eapply IH.
    + injection H as <- <-. constructor; [|constructor]. exists t. by rewrite <- Eo.
Qed.

Lemma task_attempts_answered w name t input evs o :
  States riskEvaluation !! name = Some (Task t) ->
  task_attempts w name t input = Some (evs, o) ->
  answered w evs.
Proof. apply run_attempts_answered. Qed.

Lemma task_attempts_first w name t input evs o :
  task_attempts w name t input = Some (evs, o) ->
  exists rest, evs = Invoked name 0 input (answer w t 0 input) :: rest.
Proof.
  unfold task_attempts, answer. simpl.
  destruct (attempt_outcome t _) as [v|e c].
  - intros [= <- <-]. by eexists.
  - destruct (next_retry _ e) as [[[r k] rs']|].
    + destruct (run_attempts _ _ _ _ _ _ _) as [[evs' o']|]; [|discriminate].
      intros [= <- <-]. by eexists.
    + intros [= <- <-]. by eexists.
Qed.

Lemma answered_app w a b : answered w a -> answered w b -> answered w (a ++ b).
Proof. apply Forall_app_2. Qed.

Lemma answered_entered w s evs : answered w evs -> answered w (Entered s :: evs).
Proof. by constructor. Qed.

Lemma dead_lettered_answered w exec_input e c tl r :
  DeadLettered w exec_input e c tl r -> answered w tl.
Proof.
  intros (_ & o & -> & ->)%dead_lettered_inv.
  constructor; [exact I|]. constructor; [|by repeat constructor].
  exists SendToDLQ. split; [apply state_dlq | reflexivity].
Qed.

(** Every execution starts with the first attempt of CLEAN on the input,
    and its invocations carry the answers of the world. *)
Lemma execution_starts w fields evs r :
  Execution w fields evs r ->
  (exists rest, evs = Entered CLEAN :: first_attempt w Clean (JObj fields) :: rest)
  /\ answered w evs.
Proof.
  intros HE.
  destruct HE as [aC e c tl r HC HD | aC out HC Hf | aC cm f aS e c tl r HC Hf HS HD
                 | aC cm f aS s aP e c tl r HC Hf HS HP HD | aC cm f aS s aP out HC Hf HS HP];
    pose proof (task_attempts_first _ _ _ _ _ _ HC) as (rest & ->);
    (split; [by eexists|]);
    apply (task_attempts_answered _ _ _ _ _ _ state_clean) in HC;
    try apply (task_attempts_answered _ _ _ _ _ _ state_score) in HS;
    try apply (task_attempts_answered _ _ _ _ _ _ state_persist) in HP;
    try apply dead_lettered_answered in HD;
    repeat (apply answered_entered || apply answered_app || assumption
            || (constructor; [exact I|]) || apply Forall_nil_2).
Qed.

(** The execution the interpreter gives up on: CLEAN has succeeded with an
    output that has no features_for_scoring, SCORE is entered and never
    invoked, and neither SendToDLQ nor the Fail state is reached. *)
Lemma execution_aborted w fields evs e :
  Execution w fields evs (Aborted e) ->
  e = "States.Runtime"
  /\ entered evs = [CLEAN; SCORE]
  /\ invocations DLQ evs = []
  /\ exists out,
       last (stage_calls evs) = Some (CLEAN, Success out)
       /\ get_path ["features_for_scoring"] out = None.
Proof.
  intros HE. inversion HE as [aC e' c tl r HC HD | aC out HC Hf | aC cm f aS e' c tl r HC Hf HS HD
                 | aC cm f aS s aP e' c tl r HC Hf HS HP HD | aC cm f aS s aP out HC Hf HS HP];
    subst; try (apply dead_lettered_inv in HD as (? & _); discriminate).
  pose proof (task_attempts_no_dlq _ _ _ _ _ _ HC ltac:(discriminate)) as [HiC _].
  pose proof (task_attempts_last_call _ _ _ _ _ _ Clean HC eq_refl) as HlC.
  pose proof (task_attempts_entered _ _ _ _ _ _ HC) as HeC.
  split; [reflexivity|].
  change (Entered CLEAN :: aC ++ [Entered SCORE])
    with ([Entered CLEAN] ++ aC ++ [Entered SCORE]).
  rewrite !entered_app, !invocations_app, !stage_calls_app, HeC, HiC.
  split; [reflexivity|]. split; [reflexivity|].
  exists out. split; [|exact Hf].
  change (stage_calls [Entered SCORE]) with (@nil (string * Outcome)).
  rewrite app_nil_r. by apply last_app_some.
Qed.

(** The execution that succeeds: its last invocation is PERSIST's, whose
    output is the output of the execution; SendToDLQ is never invoked. *)
Lemma execution_succeeded w fields evs out :
  Execution w fields evs (Succeeded out) ->
  last (stage_calls evs) = Some (PERSIST, Success out)
  /\ invocations DLQ evs = [].
Proof.
  intros HE. inversion HE as [aC e' c tl r HC HD | aC out' HC Hf | aC cm f aS e' c tl r HC Hf HS HD
                 | aC cm f aS s aP e' c tl r HC Hf HS HP HD | aC cm f aS s aP out' HC Hf HS HP];
    subst; try (apply dead_lettered_inv in HD as (? & _); discriminate).
  pose proof (task_attempts_no_dlq _ _ _ _ _ _ HC ltac:(discriminate)) as [HiC _].
  pose proof (task_attempts_no_dlq _ _ _ _ _ _ HS ltac:(discriminate)) as [HiS _].
  pose proof (task_attempts_no_dlq _ _ _ _ _ _ HP ltac:(discriminate)) as [HiP _].
  pose proof (task_attempts_last_call _ _ _ _ _ _ Persist HP eq_refl) as HlP.
  change (Entered CLEAN :: aC ++ Entered SCORE :: aS ++ Entered PERSIST :: aP)
    with ([Entered CLEAN] ++ aC ++ [Entered SCORE] ++ aS ++ [Entered PERSIST] ++ aP).
  rewrite !invocations_app, !stage_calls_app, HiC, HiS, HiP.
  split; [|reflexivity].
  rewrite !app_assoc. by apply last_app_some.
Qed.


(** The one ending that is neither: CLEAN succeeds with an output that has
    no features_for_scoring field, the InputPath of SCORE does not resolve,
    and the execution is given up before SCORE is invoked, with no dead
    letter. *)
Example aborted_without_dead_letter :
  execute riskEvaluation clean_without_features (JObj application)
  = Some ([Entered CLEAN; Invoked CLEAN 0 (JObj application) (Success (JObj ∅));
           Entered SCORE],
          Aborted "States.Runtime").
Proof. vm_compute. reflexivity. Qed.


(** ** Stage order *)








(** ** The dead-letter record *)

Lemma dlq_message_get_body info exec_input :
  get_path ["MessageBody"] (dlq_message info exec_input) = Some (JObj (dlq_body info exec_input)).
Proof.
  unfold dlq_message. simpl.
  rewrite lookup_insert_ne by discriminate. by rewrite lookup_insert_eq.
Qed.

Lemma dlq_body_fields info exec_input :
  dlq_body info exec_input !! "failedStage" = Some (JStr CLEAN)
  /\ dlq_body info exec_input !! "errorInfo" = Some info
  /\ dlq_body info exec_input !! "input" = Some exec_input
  /\ dom (dlq_body info exec_input) = {[ "failedStage"; "errorInfo"; "input" ]}.
Proof.
  unfold dlq_body. split; [|split; [|split]].
  - by rewrite lookup_insert_eq.
  - rewrite lookup_insert_ne by discriminate. by rewrite lookup_insert_eq.
  - rewrite !lookup_insert_ne by discriminate. by rewrite lookup_insert_eq.
  - rewrite !dom_insert_L, dom_empty_L. set_solver.
Qed.

(** C1, as stated, fails: when SCORE is the stage that fails, the one
    dead-letter record names CleanAndFeatureEngineer as failedStage, and it
    has no timestamp. *)
Lemma dead_letter_context_incomplete :
  match execute riskEvaluation score_down (JObj application) with
  | Some (evs, r) =>
      r = Failed APP_FAILED "no model"
      /\ last (stage_calls evs) = Some (SCORE, Failure "ModelNotFound" "no model")
      /\ map (get_path ["failedStage"]) (dead_letters evs) = [Some (JStr CLEAN)]
      /\ map (get_path ["failedStage"]) (dead_letters evs) <> [Some (JStr SCORE)]
      /\ map (get_path ["timestamp"]) (dead_letters evs) = [None]
  | None => False
  end.
Proof. vm_compute. repeat split; discriminate. Qed.

Lemma error_info_error e c : get_path ["Error"] (error_info e c) = Some (JStr e).
Proof. unfold error_info. simpl. by rewrite lookup_insert_eq. Qed.

#[local] Arguments dlq_message : simpl never.
#[local] Arguments get_path : simpl never.

Lemma dead_letters_tail pre info exec_input o :
  invocations DLQ pre = [] ->
  dead_letters (pre ++ dlq_tail (dlq_message info exec_input) o)
  = [JObj (dlq_body info exec_input)].
Proof.
  intros Hinv. unfold dead_letters. rewrite invocations_app, Hinv. simpl.
  by rewrite dlq_message_get_body.
Qed.

(** C1, amended. In every execution that ends in the Fail state
    ProcessingFailed, that is, whenever the last attempt of a stage failed,
    exactly one dead-letter record is handed to the queue. Its fields are
    exactly failedStage, errorInfo and input: errorInfo is the Error and
    Cause of the failed attempt that ended the stage, and input is the input
    the execution was started on, which carries the application_id the
    dispatcher put there; there is no timestamp field. The execution the
    interpreter gives up on (States.Runtime, CLEAN's output without
    features_for_scoring) fails for good without any dead-letter record, and
    a successful execution hands none to the queue. *)
Theorem dead_letter_record w fields :
  exists evs r,
    execute riskEvaluation w (JObj fields) = Some (evs, r)
    /\ (exists rest, evs = Entered CLEAN :: first_attempt w Clean (JObj fields) :: rest)
    /\ answered w evs
    /\ (forall e0 c0, r = Failed e0 c0 ->
        exists name e body,
          last (stage_calls evs) = Some (name, Failure e c0)
          /\ dead_letters evs = [JObj body]
          /\ body !! "errorInfo" = Some (error_info e c0)
          /\ get_path ["Error"] (error_info e c0) = Some (JStr e)
          /\ get_path ["Cause"] (error_info e c0) = Some (JStr c0)
          /\ body !! "input" = Some (JObj fields)
          /\ get_path ["input"; "application_id"] (JObj body) = fields !! "application_id"
          /\ is_Some (body !! "failedStage")
          /\ dom body = {[ "failedStage"; "errorInfo"; "input" ]})
    /\ (forall e, r = Aborted e ->
        e = "States.Runtime"
        /\ dead_letters evs = []
        /\ exists out, last (stage_calls evs) = Some (CLEAN, Success out)
                       /\ get_path ["features_for_scoring"] out = None)
    /\ (forall out, r = Succeeded out ->
        dead_letters evs = []
        /\ last (stage_calls evs) = Some (PERSIST, Success out)).
Proof.
  destruct (execute_Execution w fields) as (evs & r & Hrun & HE).
  exists evs, r. split; [exact Hrun|].
  destruct (execution_starts _ _ _ _ HE) as [Hstart Hans].
  split; [exact Hstart|]. split; [exact Hans|]. clear Hstart Hans.
  split; [|split].
  - intros e0 c0 Hr.
    destruct (execution_failed _ _ _ _ _ _ HE Hr)
      as (pre & name & e & o & -> & -> & _ & Hlast & Hinv & _ & _).
    destruct (dlq_body_fields (error_info e c0) (JObj fields)) as (Hs & Hi & Hin & Hdom).
    exists name, e, (dlq_body (error_info e c0) (JObj fields)).
    split. { rewrite stage_calls_app.
             change (stage_calls (dlq_tail _ _)) with (@nil (string * Outcome)).
             by rewrite app_nil_r. }
    split; [by apply dead_letters_tail|].
    split; [exact Hi|]. split; [apply error_info_error|].
    split; [apply error_info_cause|]. split; [exact Hin|].
    split. { unfold get_path. rewrite Hin. by destruct (fields !! "application_id"). }
    split; [by eexists | exact Hdom].
  - intros e ->. apply execution_aborted in HE as (? & _ & Hinv & ?).
    split; [done|]. split; [|done]. unfold dead_letters. by rewrite Hinv.
  - intros out ->. apply execution_succeeded in HE as [? Hinv].
    split; [|done]. unfold dead_letters. by rewrite Hinv.
Qed.

(** ** Errors no retrier names *)

Lemma fresh_counts_retriers t : map fst (fresh_counts t) = Retry t.
Proof.
  unfold fresh_counts. induction (Retry t) as [|r l IH]; simpl; by f_equal.
Qed.

(** In the trace of a retry loop, a failure that no retrier names is the
    last event, and it is the outcome of the loop. *)
Lemma run_attempts_unclassified fuel w name t input rs n evs o pre post name' n' input' e c :
  run_attempts fuel w name t input rs n = Some (evs, o) ->
  evs = pre ++ Invoked name' n' input' (Failure e c) :: post ->
  retryable (map fst rs) e = false ->
  post = [] /\ o = Failure e c.
Proof.
  revert rs n evs o pre. induction fuel as [|fuel IH]; intros rs n evs o pre H Hsplit Hun;
    [discriminate|].
  simpl in H. destruct (attempt_outcome t _) as [v|e0 c0].
  - injection H as <- <-.
    destruct pre as [|x [|y pre]]; simpl in Hsplit; discriminate.
  - destruct (next_retry rs e0) as [[[r k] rs']|] eqn:En.
    + destruct (run_attempts fuel w name t input rs' (S n)) as [[evs' o']|] eqn:E;
        [|discriminate].
      injection H as <- <-. apply next_retry_retriers in En as [Hm Hr].
      destruct pre as [|x [|y pre]]; simpl in Hsplit.
      * injection Hsplit as _ _ _ -> _ _. congruence.
      * discriminate.
      * injection Hsplit as _ _ Hsplit. eapply IH; [exact E | exact Hsplit | by rewrite Hm].
    + injection H as <- <-.
      destruct pre as [|x [|y pre]]; simpl in Hsplit; try discriminate.
      by injection Hsplit as _ _ _ -> -> <-.
Qed.

(** C8. For each of the three stages, run on any workflow state that is a
    JSON object: an attempt whose error is named by none of the stage's
    retriers is the last event of the stage (no sleep and no further attempt
    follow it), the state is left for SendToDLQ with that error stored under
    errorInfo, and from there the execution hands the error to the queue and
    ends in terminal failure with its cause. *)
Theorem unclassified_error_is_fatal w exec_input st m evs step pre post n input e c :
  exec_task w exec_input (stage_name st) (stage_task st) (JObj m) = Some (evs, step) ->
  evs = pre ++ Invoked (stage_name st) n input (Failure e c) :: post ->
  retryable (Retry (stage_task st)) e = false ->
  post = []
  /\ step = Goto DLQ (JObj (<["errorInfo" := error_info e c]> m))
  /\ exists o,
      run 2 riskEvaluation w exec_input DLQ (JObj (<["errorInfo" := error_info e c]> m))
      = Some (dlq_tail (dlq_message (error_info e c) exec_input) o, Failed APP_FAILED c).
Proof.
  intros Hex Hsplit Hun. unfold exec_task in Hex.
  destruct (task_input exec_input (stage_task st) (JObj m)) as [inp|].
  2: { injection Hex as <- _. by destruct pre. }
  destruct (task_attempts w (stage_name st) (stage_task st) inp) as [[evs' o]|] eqn:Ht;
    [|discriminate].
  assert (evs' = evs) as ->.
  { destruct o as [v|e' c'].
    - destruct (set_path _ v _); by inversion Hex.
    - destruct (find_catcher _ e'); [destruct (set_path _ _ _)|]; by inversion Hex. }
  destruct (run_attempts_unclassified _ _ _ _ _ _ _ _ _ _ _ _ _ _ _ _ Ht Hsplit)
    as [-> ->]; [by rewrite fresh_counts_retriers|].
  split; [reflexivity|].
  assert (Catch (stage_task st) = [catch_all ["errorInfo"] DLQ]) as Hc
    by (by destruct st).
  rewrite Hc, find_catch_all in Hex. simpl in Hex. injection Hex as <-.
  split; [reflexivity|].
  destruct (run_dead_letter 0 w exec_input (<["errorInfo" := error_info e c]> m) e c)
    as (tl & r & Hrun & HD); [apply lookup_insert_eq|].
  apply dead_lettered_inv in HD as (-> & o & -> & _). by exists o.
Qed.

Lemma unclassified_error_is_fatal_witness :
  (exec_task score_down (JObj application) SCORE CallScoringService (JObj score_state)
   = Some ([Invoked SCORE 0 (JObj ∅) (Failure "ModelNotFound" "no model")],
           Goto DLQ (JObj (<["errorInfo" := error_info "ModelNotFound" "no model"]> score_state)))
   /\ retryable (Retry CallScoringService) "ModelNotFound" = false)
  /\ exists o,
      run 2 riskEvaluation score_down (JObj application) DLQ
        (JObj (<["errorInfo" := error_info "ModelNotFound" "no model"]> score_state))
      = Some (dlq_tail (dlq_message (error_info "ModelNotFound" "no model") (JObj application)) o,
              Failed APP_FAILED "no model").
Proof.
  assert (exec_task score_down (JObj application) SCORE CallScoringService (JObj score_state)
          = Some ([Invoked SCORE 0 (JObj ∅) (Failure "ModelNotFound" "no model")],
                  Goto DLQ (JObj (<["errorInfo" := error_info "ModelNotFound" "no model"]>
                                    score_state)))) as Hex
    by (vm_compute; reflexivity).
  assert (retryable (Retry CallScoringService) "ModelNotFound" = false) as Hun
    by (vm_compute; reflexivity).
  split; [split; [exact Hex | exact Hun]|].
  exact (proj2 (proj2 (unclassified_error_is_fatal score_down (JObj application) Score
                         score_state _ _ [] [] 0 (JObj ∅) "ModelNotFound" "no model"
                         Hex eq_refl Hun))).
Defined.

(** ** Exhausting the retries *)

(** A stage function that answers every attempt with an error the single
    retrier names is invoked once, then once per retry the retrier has left. *)
Lemma run_attempts_exhaust fuel w name t input r used n :
  (forall i, exists e c,
      attempt_outcome t (respond w (Resource t) i input) = Failure e c
      /\ error_matches (Retrier.ErrorEquals r) e = true) ->
  (used <= Retrier.MaxAttempts r)%nat ->
  (Retrier.MaxAttempts r - used < fuel)%nat ->
  exists evs e c,
    run_attempts fuel w name t input [(r, used)] n = Some (evs, Failure e c)
    /\ length (invocations name evs) = S (Retrier.MaxAttempts r - used)
    /\ length (sleeps name evs) = (Retrier.MaxAttempts r - used)%nat.
Proof.
  intros Hfail. revert used n. induction fuel as [|fuel IH]; intros used n Hle Hlt; [lia|].
  simpl. destruct (Hfail n) as (e & c & -> & ->).
  destruct (Nat.ltb_spec used (Retrier.MaxAttempts r)) as [Hu|Hu].
  - destruct (IH (S used) (S n)) as (evs & e' & c' & -> & Hi & Hs); [lia | lia |].
    eexists _, e', c'. split; [reflexivity|]. simpl. rewrite String.eqb_refl. simpl.
    rewrite Hi, Hs. lia.
  - eexists _, e, c. split; [reflexivity|]. simpl. rewrite String.eqb_refl. simpl.
    replace (Retrier.MaxAttempts r - used)%nat with 0%nat by lia. done.
Qed.

(** C4, as stated, fails: SCORE is configured with MaxAttempts 3, its
    function always raises the retryable ScoringServiceCallFailed, and it is
    invoked 4 times, not 3, before the execution ends in failure. *)
Lemma max_attempts_counts_retries :
  Retrier.MaxAttempts score_retrier = 3%nat
  /\ match execute riskEvaluation score_unavailable (JObj application) with
     | Some (evs, r) =>
         map snd (invocations SCORE evs)
         = replicate 4 (Failure "ScoringServiceCallFailed" "503")
         /\ length (invocations SCORE evs) <> 3%nat
         /\ r = Failed APP_FAILED "503"
     | None => False
     end.
Proof. vm_compute. repeat split; discriminate. Qed.

(** C4, amended. For each stage whose retrier has MaxAttempts 3, run on a
    workflow state that is a JSON object: if the stage function answers every
    attempt with an error the retrier names, it is invoked exactly 4 times
    (the first attempt and 3 retries, with 3 sleeps in between); the state is
    then left for SendToDLQ and the execution ends in terminal failure. *)
Theorem retries_exhausted w exec_input st r m input :
  Retry (stage_task st) = [r] ->
  Retrier.MaxAttempts r = 3%nat ->
  task_input exec_input (stage_task st) (JObj m) = Some input ->
  (forall i, exists e c,
      attempt_outcome (stage_task st) (respond w (Resource (stage_task st)) i input)
      = Failure e c
      /\ error_matches (Retrier.ErrorEquals r) e = true) ->
  exists evs e c,
    exec_task w exec_input (stage_name st) (stage_task st) (JObj m)
    = Some (evs, Goto DLQ (JObj (<["errorInfo" := error_info e c]> m)))
    /\ length (invocations (stage_name st) evs) = 4%nat
    /\ length (sleeps (stage_name st) evs) = 3%nat
    /\ exists o,
        run 2 riskEvaluation w exec_input DLQ (JObj (<["errorInfo" := error_info e c]> m))
        = Some (dlq_tail (dlq_message (error_info e c) exec_input) o, Failed APP_FAILED c).
Proof.
  intros Hr Hmax Hin Hfail.
  destruct (run_attempts_exhaust (S (budget (fresh_counts (stage_task st)))) w
              (stage_name st) (stage_task st) input r 0 0 Hfail)
    as (evs & e & c & Ht & Hi & Hs).
  { lia. }
  { unfold fresh_counts. rewrite Hr. simpl. lia. }
  assert (task_attempts w (stage_name st) (stage_task st) input = Some (evs, Failure e c))
    as Ht'.
  { unfold task_attempts. unfold fresh_counts in *. rewrite Hr in *. exact Ht. }
  exists evs, e, c. split.
  { unfold exec_task. rewrite Hin, Ht'.
    assert (Catch (stage_task st) = [catch_all ["errorInfo"] DLQ]) as -> by (by destruct st).
    by rewrite find_catch_all. }
  rewrite Hi, Hs, Hmax. split; [reflexivity|]. split; [reflexivity|].
  destruct (run_dead_letter 0 w exec_input (<["errorInfo" := error_info e c]> m) e c)
    as (tl & res & Hrun & HD); [apply lookup_insert_eq|].
  apply dead_lettered_inv in HD as (-> & o & -> & _). by exists o.
Qed.

Lemma retries_exhausted_witness :
  (Retry (stage_task Score) = [score_retrier]
   /\ Retrier.MaxAttempts score_retrier = 3%nat
   /\ task_input (JObj application) (stage_task Score) (JObj score_state) = Some (JObj ∅))
  /\ exists evs e c,
      exec_task score_unavailable (JObj application) SCORE CallScoringService (JObj score_state)
      = Some (evs, Goto DLQ (JObj (<["errorInfo" := error_info e c]> score_state)))
      /\ length (invocations SCORE evs) = 4%nat
      /\ length (sleeps SCORE evs) = 3%nat
      /\ exists o,
          run 2 riskEvaluation score_unavailable (JObj application) DLQ
            (JObj (<["errorInfo" := error_info e c]> score_state))
          = Some (dlq_tail (dlq_message (error_info e c) (JObj application)) o,
                  Failed APP_FAILED c).
Proof.
  assert (task_input (JObj application) (stage_task Score) (JObj score_state)
          = Some (JObj ∅)) as Hin by (vm_compute; reflexivity).
  split; [repeat split; exact Hin|].
  apply (retries_exhausted score_unavailable (JObj application) Score score_retrier
           score_state (JObj ∅) eq_refl eq_refl Hin).
  intros i. exists "ScoringServiceCallFailed", "503". split; reflexivity.
Defined.

(** ** Retry policies *)

Lemma task_attempts_bound w name t input evs o :
  task_attempts w name t input = Some (evs, o) ->
  (length (invocations name evs) <= S (budget (fresh_counts t)))%nat
  /\ (length (sleeps name evs) <= budget (fresh_counts t))%nat.
Proof.
  intros H. apply run_attempts_invocations in H as (fs & Hinv & _ & Hlen & Hsl).
  rewrite Hinv, Hsl, length_map, length_app. simpl. lia.
Qed.

(** C6, as stated, fails on the number of attempts: CLEAN is configured
    with MaxAttempts 2 and is attempted 3 times, more than the 2 attempts the
    claim allows. *)
Lemma clean_attempted_three_times :
  Retrier.MaxAttempts clean_retrier = 2%nat
  /\ match execute riskEvaluation clean_rejects (JObj application) with
     | Some (evs, r) =>
         map snd (invocations CLEAN evs)
         = replicate 3 (Failure "DataValidationError" "bad record")
         /\ ~ (length (invocations CLEAN evs) <= 2)%nat
     | None => False
     end.
Proof. vm_compute. repeat split. lia. Qed.

(** C6, amended. The configured policies are: CLEAN timeout 120s, interval
    3s, backoff rate 1.5, no jitter, DataValidationError retryable; SCORE
    timeout 60s, interval 5s, backoff rate 2, full jitter; PERSIST timeout 90s,
    interval 5s, backoff rate 2, full jitter; and MaxAttempts, 2 for CLEAN and
    3 for SCORE and PERSIST, bounds the retries: a stage is attempted at most
    MaxAttempts + 1 times, with at most MaxAttempts sleeps. *)
Theorem retry_policies :
  (TimeoutSeconds CleanAndFeatureEngineer = Some 120%Q
   /\ Retry CleanAndFeatureEngineer = [clean_retrier]
   /\ Retrier.IntervalSeconds clean_retrier = 3%Q
   /\ Retrier.MaxAttempts clean_retrier = 2%nat
   /\ Retrier.BackoffRate clean_retrier = (3 # 2)%Q
   /\ Retrier.JitterStrategy clean_retrier = NONE
   /\ retryable (Retry CleanAndFeatureEngineer) "DataValidationError" = true)
  /\ (TimeoutSeconds CallScoringService = Some 60%Q
      /\ Retry CallScoringService = [score_retrier]
      /\ Retrier.IntervalSeconds score_retrier = 5%Q
      /\ Retrier.MaxAttempts score_retrier = 3%nat
      /\ Retrier.BackoffRate score_retrier = 2%Q
      /\ Retrier.JitterStrategy score_retrier = FULL)
  /\ (TimeoutSeconds PersistScoredApplication = Some 90%Q
      /\ Retry PersistScoredApplication = [persist_retrier]
      /\ Retrier.IntervalSeconds persist_retrier = 5%Q
      /\ Retrier.MaxAttempts persist_retrier = 3%nat
      /\ Retrier.BackoffRate persist_retrier = 2%Q
      /\ Retrier.JitterStrategy persist_retrier = FULL)
  /\ forall w st input,
      exists evs o r,
        task_attempts w (stage_name st) (stage_task st) input = Some (evs, o)
        /\ Retry (stage_task st) = [r]
        /\ (length (invocations (stage_name st) evs) <= Retrier.MaxAttempts r + 1)%nat
        /\ (length (sleeps (stage_name st) evs) <= Retrier.MaxAttempts r)%nat.
Proof.
  split; [repeat split|]. split; [repeat split|]. split; [repeat split|].
  intros w st input.
  destruct (task_attempts_total w (stage_name st) (stage_task st) input) as (evs & o & Ht).
  pose proof (task_attempts_bound _ _ _ _ _ _ Ht) as [Hi Hs].
  exists evs, o. destruct st; eexists; (split; [exact Ht|]); (split; [reflexivity|]);
    simpl in *; lia.
Qed.

(** ** Backoff delays *)

Lemma next_retry_grant rs e r k rs' :
  next_retry rs e = Some (r, k, rs') ->
  r ∈ map fst rs /\ (1 <= k <= Retrier.MaxAttempts r)%nat.
Proof.
  revert r k rs'. induction rs as [|[r0 used] rs IH]; intros r k rs' H; simpl in H.
  - discriminate.
  - destruct (error_matches (Retrier.ErrorEquals r0) e).
    + destruct (Nat.ltb_spec used (Retrier.MaxAttempts r0)); [|discriminate].
      injection H as <- <- <-. split; [left | lia].
    + destruct (next_retry rs e) as [[[r1 k1] rs1]|] eqn:E; [|discriminate].
      injection H as <- <- <-. destruct (IH _ _ _ eq_refl) as [Hin Hk].
      split; [by right | exact Hk].
Qed.

(** Every sleep of the retry loop is the delay of a retry some retrier
    granted, scaled by the draw the world made for it. *)
Lemma run_attempts_sleeps fuel w name t input rs n evs o k d :
  run_attempts fuel w name t input rs n = Some (evs, o) ->
  (k, d) ∈ sleeps name evs ->
  exists r, r ∈ map fst rs
            /\ (1 <= k <= Retrier.MaxAttempts r)%nat
            /\ d = retry_delay r k (jitter w name k).
Proof.
  revert rs n evs o. induction fuel as [|fuel IH]; intros rs n evs o H Hin; [discriminate|].
  simpl in H. destruct (attempt_outcome t _) as [v|e c].
  - injection H as <- <-. simpl in Hin. by apply elem_of_nil in Hin.
  - destruct (next_retry rs e) as [[[r k0] rs']|] eqn:En.
    + destruct (run_attempts fuel w name t input rs' (S n)) as [[evs' o']|] eqn:E;
        [|discriminate].
      injection H as <- <-. simpl in Hin. rewrite String.eqb_refl in Hin.
      pose proof (next_retry_grant _ _ _ _ _ En) as [Hr Hk].
      apply next_retry_retriers in En as [Hm _].
      apply elem_of_cons in Hin as [[= -> ->] | Hin].
      * exists r. eauto.
      * destruct (IH _ _ _ _ E Hin) as (r' & Hr' & Hk' & ->).
        exists r'. rewrite <- Hm. eauto.
    + injection H as <- <-. simpl in Hin. by apply elem_of_nil in Hin.
Qed.

Lemma full_jitter_bounds r k u :
  (Retrier.IntervalSeconds r == 5)%Q ->
  (Retrier.BackoffRate r == 2)%Q ->
  Retrier.JitterStrategy r = FULL ->
  (1 <= k)%nat ->
  (0 <= u)%Q -> (u <= 1)%Q ->
  (0 <= retry_delay r k u)%Q /\ (retry_delay r k u <= 5 * 2 ^ (Z.of_nat k - 1))%Q.
Proof.
  intros Hi Hb Hj Hk Hu0 Hu1. unfold retry_delay, backoff_interval. rewrite Hj.
  replace (Z.of_nat (k - 1)) with (Z.of_nat k - 1)%Z by lia.
  rewrite Hi, Hb.
  assert (0 <= 5 * 2 ^ (Z.of_nat k - 1))%Q as Hpos.
  { apply Qmult_le_0_compat; [discriminate|]. apply Qpower_0_le. discriminate. }
  split.
  - by apply Qmult_le_0_compat.
  - rewrite <- (Qmult_1_l (5 * 2 ^ (Z.of_nat k - 1))) at 2.
    by apply Qmult_le_compat_r.
Qed.

(** C7. For a stage whose retrier has IntervalSeconds 5, BackoffRate 2 and
    full jitter, in a world whose jitter draws lie in [0, 1]: the retry loop
    returns, and every sleep it makes before retry number k has k >= 1 and
    lasts between 0 and 5 * 2^(k-1) seconds, both ends included. *)
Theorem backoff_delay_bounds w name t input r :
  Retry t = [r] ->
  (Retrier.IntervalSeconds r == 5)%Q ->
  (Retrier.BackoffRate r == 2)%Q ->
  Retrier.JitterStrategy r = FULL ->
  (forall s k, (0 <= jitter w s k)%Q /\ (jitter w s k <= 1)%Q) ->
  exists evs o,
    task_attempts w name t input = Some (evs, o)
    /\ forall k d, (k, d) ∈ sleeps name evs ->
       (1 <= k)%nat /\ (0 <= d)%Q /\ (d <= 5 * 2 ^ (Z.of_nat k - 1))%Q.
Proof.
  intros Hr Hi Hb Hj Hu.
  destruct (task_attempts_total w name t input) as (evs & o & Ht).
  exists evs, o. split; [exact Ht|]. intros k d Hin.
  destruct (run_attempts_sleeps _ _ _ _ _ _ _ _ _ _ _ Ht Hin) as (r' & Hr' & Hk & ->).
  rewrite fresh_counts_retriers, Hr in Hr'. apply list_elem_of_singleton in Hr' as ->.
  destruct (Hu name k) as [Hu0 Hu1].
  destruct (full_jitter_bounds r k (jitter w name k) Hi Hb Hj) as [H0 H1];
    [lia | exact Hu0 | exact Hu1 |].
  repeat split; [lia | exact H0 | exact H1].
Qed.

Lemma backoff_delay_bounds_witness :
  (Retry CallScoringService = [score_retrier]
   /\ (Retrier.IntervalSeconds score_retrier == 5)%Q
   /\ (Retrier.BackoffRate score_retrier == 2)%Q
   /\ Retrier.JitterStrategy score_retrier = FULL)
  /\ exists evs o,
      task_attempts score_unavailable SCORE CallScoringService (JObj ∅) = Some (evs, o)
      /\ forall k d, (k, d) ∈ sleeps SCORE evs ->
         (1 <= k)%nat /\ (0 <= d)%Q /\ (d <= 5 * 2 ^ (Z.of_nat k - 1))%Q.
Proof.
  split; [repeat split|].
  apply (backoff_delay_bounds score_unavailable SCORE CallScoringService (JObj ∅)
           score_retrier eq_refl); [reflexivity | reflexivity | reflexivity |].
  intros s k. simpl. split; discriminate.
Defined.

Example score_unavailable_sleeps :
  option_map (fun '(evs, _) => sleeps SCORE evs)
    (task_attempts score_unavailable SCORE CallScoringService (JObj ∅))
  = Some [(1%nat, (1 # 2) * (5 * 2 ^ 0))%Q; (2%nat, (1 # 2) * (5 * 2 ^ 1))%Q;
          (3%nat, (1 # 2) * (5 * 2 ^ 2))%Q].
Proof. reflexivity. Qed.

(** ** What SCORE reads and writes *)

Lemma get_field k m : get_path [k] (JObj m) = m !! k.
Proof. unfold get_path. by destruct (m !! k). Qed.

Lemma events_of_invoked name input evs s n i o :
  events_of name input evs -> Invoked s n i o ∈ evs -> s = name /\ i = input.
Proof.
  intros H Hin. unfold events_of in H. rewrite Forall_forall in H.
  exact (H _ Hin).
Qed.

(** C10. SCORE, run on a workflow state whose features_for_scoring field is
    [f] and left for PERSIST: its function was invoked on [f] alone, so that
    any other state with the same features gives the same invocations and the
    same score; the state it leaves is the one it was given with risk_score
    set to the score, every other field unchanged; and PERSIST, which has no
    InputPath, is invoked on that whole state. *)
Theorem score_frame w exec_input m f evs data' :
  m !! "features_for_scoring" = Some f ->
  exec_task w exec_input SCORE CallScoringService (JObj m) = Some (evs, Goto PERSIST data') ->
  exists s,
    task_attempts w SCORE CallScoringService f = Some (evs, Success s)
    /\ (forall n input o, Invoked SCORE n input o ∈ evs -> input = f)
    /\ data' = JObj (<["risk_score" := s]> m)
    /\ get_path ["risk_score"] data' = Some s
    /\ (forall k, k <> "risk_score" -> get_path [k] data' = m !! k)
    /\ task_input exec_input PersistScoredApplication data' = Some data'
    /\ (forall m2, m2 !! "features_for_scoring" = Some f ->
        exec_task w exec_input SCORE CallScoringService (JObj m2)
        = Some (evs, Goto PERSIST (JObj (<["risk_score" := s]> m2)))).
Proof.
  intros Hf Hex.
  assert (forall m', m' !! "features_for_scoring" = Some f ->
          task_input exec_input CallScoringService (JObj m') = Some f) as Hin.
  { intros m' Hm'. by rewrite score_task_input, get_field. }
  destruct (exec_task_catch_all w exec_input SCORE CallScoringService (JObj m) f
              ["errorInfo"] DLQ (Hin m Hf) eq_refl) as (evs' & o & Ht & Hex').
  rewrite Hex' in Hex. destruct o as [s|e c].
  2: { rewrite after_caught in Hex. discriminate. }
  rewrite after_score_success in Hex. injection Hex as -> <-.
  exists s. split; [exact Ht|]. split.
  { intros n input o Hinv.
    eapply events_of_invoked; [eapply task_attempts_events, Ht | exact Hinv]. }
  split; [reflexivity|]. split; [by rewrite get_field, lookup_insert_eq|]. split.
  { intros k Hk. by rewrite get_field, lookup_insert_ne. }
  split; [reflexivity|].
  intros m2 Hm2.
  destruct (exec_task_catch_all w exec_input SCORE CallScoringService (JObj m2) f
              ["errorInfo"] DLQ (Hin m2 Hm2) eq_refl) as (evs2 & o2 & Ht2 & ->).
  rewrite Ht in Ht2. injection Ht2 as <- <-. by rewrite after_score_success.
Qed.

Lemma score_frame_witness :
  (cleaned !! "features_for_scoring" = Some (JObj {[ "dti" := JNum (1 # 5) ]})
   /\ exec_task all_up (JObj application) SCORE CallScoringService (JObj cleaned)
      = Some ([Invoked SCORE 0 (JObj {[ "dti" := JNum (1 # 5) ]}) (Success (JNum (42 # 100)))],
              Goto PERSIST (JObj (<["risk_score" := JNum (42 # 100)]> cleaned))))
  /\ get_path ["raw_s3_key"] (JObj (<["risk_score" := JNum (42 # 100)]> cleaned))
     = cleaned !! "raw_s3_key".
Proof.
  assert (cleaned !! "features_for_scoring" = Some (JObj {[ "dti" := JNum (1 # 5) ]}))
    as Hf by (vm_compute; reflexivity).
  assert (exec_task all_up (JObj application) SCORE CallScoringService (JObj cleaned)
          = Some ([Invoked SCORE 0 (JObj {[ "dti" := JNum (1 # 5) ]})
                     (Success (JNum (42 # 100)))],
                  Goto PERSIST (JObj (<["risk_score" := JNum (42 # 100)]> cleaned))))
    as Hex by (vm_compute; reflexivity).
  split; [split; [exact Hf | exact Hex]|].
  destruct (score_frame all_up (JObj application) cleaned _ _ _ Hf Hex)
    as (s & _ & _ & _ & _ & Hframe & _).
  apply Hframe. discriminate.
Defined.

(** X19. In a whole execution, PERSIST is only ever invoked on the object
    CLEAN returned with the score SCORE returned set under risk_score. *)
Lemma persist_receives_state w fields evs r n input o :
  execute riskEvaluation w (JObj fields) = Some (evs, r) ->
  Invoked PERSIST n input o ∈ evs ->
  exists cm s,
    (CLEAN, Success (JObj cm)) ∈ stage_calls evs
    /\ (SCORE, Success s) ∈ stage_calls evs
    /\ input = JObj (<["risk_score" := s]> cm).
Proof.
  intros Hrun Hin. apply execute_inv in Hrun.
  assert (forall name t i a out (st : Stage),
             task_attempts w name t i = Some (a, out) -> stage_of name = Some st ->
             (name, out) ∈ stage_calls a) as Hlast.
  { intros name t i a out st Ht Hst.
    apply (task_attempts_last_call _ _ _ _ _ _ st) in Ht; [|exact Hst].
    destruct (stage_calls a) as [|x l] eqn:E using rev_ind; [discriminate|].
    rewrite last_snoc in Ht. injection Ht as ->. apply elem_of_app. right. left. }
  destruct Hrun as [aC e c tl r HC HD | aC out HC Hf | aC cm f aS e c tl r HC Hf HS HD
                   | aC cm f aS s aP e c tl r HC Hf HS HP HD | aC cm f aS s aP out HC Hf HS HP];
    try (apply dead_lettered_inv in HD as (_ & oD & -> & _));
    pose proof (task_attempts_events _ _ _ _ _ _ HC) as HeC;
    try pose proof (task_attempts_events _ _ _ _ _ _ HS) as HeS;
    try pose proof (task_attempts_events _ _ _ _ _ _ HP) as HeP;
    repeat (rewrite elem_of_cons in Hin || rewrite elem_of_app in Hin);
    rewrite ?elem_of_nil in Hin.
  - destruct Hin as [?|[Hin|[?|[?|[?|[]]]]]]; try discriminate.
    by destruct (events_of_invoked _ _ _ _ _ _ _ HeC Hin).
  - destruct Hin as [?|[Hin|[?|[]]]]; try discriminate.
    by destruct (events_of_invoked _ _ _ _ _ _ _ HeC Hin).
  - destruct Hin as [?|[Hin|[?|[Hin|[?|[?|[?|[]]]]]]]]; try discriminate.
    + by destruct (events_of_invoked _ _ _ _ _ _ _ HeC Hin).
    + by destruct (events_of_invoked _ _ _ _ _ _ _ HeS Hin).
  - destruct Hin as [?|[Hin|[?|[Hin|[?|[Hin|[?|[?|[?|[]]]]]]]]]]; try discriminate.
    + by destruct (events_of_invoked _ _ _ _ _ _ _ HeC Hin).
    + by destruct (events_of_invoked _ _ _ _ _ _ _ HeS Hin).
    + destruct (events_of_invoked _ _ _ _ _ _ _ HeP Hin) as [_ ->].
      exists cm, s.
      change (Entered CLEAN :: aC ++ Entered SCORE :: aS ++ Entered PERSIST :: aP ++ ?t)
        with ([Entered CLEAN] ++ aC ++ [Entered SCORE] ++ aS ++ [Entered PERSIST] ++ aP ++ t).
      rewrite !stage_calls_app, !elem_of_app.
      split; [right; left; by eapply (Hlast _ _ _ _ _ Clean)|].
      split; [|reflexivity].
      right; right; right; left. by eapply (Hlast _ _ _ _ _ Score).
  - destruct Hin as [?|[Hin|[?|[Hin|[?|Hin]]]]]; try discriminate.
    + by destruct (events_of_invoked _ _ _ _ _ _ _ HeC Hin).
    + by destruct (events_of_invoked _ _ _ _ _ _ _ HeS Hin).
    + destruct (events_of_invoked _ _ _ _ _ _ _ HeP Hin) as [_ ->].
      exists cm, s.
      change (Entered CLEAN :: aC ++ Entered SCORE :: aS ++ Entered PERSIST :: aP)
        with ([Entered CLEAN] ++ aC ++ [Entered SCORE] ++ aS ++ [Entered PERSIST] ++ aP).
      rewrite !stage_calls_app, !elem_of_app.
      split; [right; left; by eapply (Hlast _ _ _ _ _ Clean)|].
      split; [|reflexivity].
      right; right; right; left. by eapply (Hlast _ _ _ _ _ Score).
Qed.

(** ** The table of scored applications *)

Section StoreFacts.

Import Store.

Lemma upsert_keys r t :
  map application_id (upsert r t)
  = if decide (application_id r ∈ map application_id t)
    then map application_id t
    else map application_id t ++ [application_id r].
Proof.
  induction t as [|r' t IH]; simpl.
  - reflexivity.
  - destruct (String.eqb_spec (application_id r') (application_id r)) as [E|E]; simpl.
    + rewrite decide_True by (rewrite E; left). by rewrite E.
    + rewrite IH. destruct (decide (application_id r ∈ map application_id t)) as [Hin|Hin].
      * by rewrite decide_True by (by right).
      * rewrite decide_False; [done|].
        intros [?|?]%elem_of_cons; congruence.
Qed.

Lemma upsert_primary_key r t : primary_key t -> primary_key (upsert r t).
Proof.
  unfold primary_key. intros H. rewrite upsert_keys. case_decide; [done|].
  apply NoDup_app. split; [done|]. split; [|apply NoDup_singleton].
  intros x Hx ->%list_elem_of_singleton. done.
Qed.

Lemma upsert_elem r t : r ∈ upsert r t.
Proof.
  induction t as [|r' t IH]; simpl; [left|].
  destruct (String.eqb (application_id r') (application_id r)); [left | by right].
Qed.

Lemma upsert_present r t :
  application_id r ∈ map application_id t -> length (upsert r t) = length t.
Proof.
  induction t as [|r' t IH]; simpl; [by intros ?%elem_of_nil|].
  destruct (String.eqb_spec (application_id r') (application_id r)) as [E|E];
    [done|].
  intros [?|Hin]%elem_of_cons; [congruence|]. simpl. by rewrite IH.
Qed.

Lemma upsert_twice r t : upsert r (upsert r t) = upsert r t.
Proof.
  induction t as [|r' t IH]; simpl.
  - by rewrite String.eqb_refl.
  - destruct (String.eqb_spec (application_id r') (application_id r)) as [E|E]; simpl.
    + by rewrite String.eqb_refl.
    + destruct (String.eqb_spec (application_id r') (application_id r)); [done|].
      by rewrite IH.
Qed.

Lemma rows_of_none id t :
  (forall x, x ∈ t -> application_id x <> id) -> rows_of id t = [].
Proof.
  unfold rows_of. induction t as [|r t IH]; intros H; [done|].
  rewrite filter_cons_False by (apply H; left).
  apply IH. intros x Hx. apply H. by right.
Qed.

(** Under the primary key a row found in the table is the only one with
    its application_id. *)
Lemma rows_of_unique r t :
  primary_key t -> r ∈ t -> rows_of (application_id r) t = [r].
Proof.
  unfold primary_key. induction t as [|r' t IH]; simpl.
  - by intros _ ?%elem_of_nil.
  - intros [Hnotin Hnd]%NoDup_cons Hin.
    assert (forall x, x ∈ t -> application_id x <> application_id r' ) as Hne.
    { intros x Hx Heq. apply Hnotin. rewrite <- Heq. by apply list_elem_of_fmap_2. }
    apply elem_of_cons in Hin as [->|Hin].
    + unfold rows_of. rewrite filter_cons_True by done. f_equal.
      by apply rows_of_none.
    + unfold rows_of. rewrite filter_cons_False by (intros Heq; by apply (Hne r)).
      by apply IH.
Qed.

(** C9. On a table that satisfies its primary key, persisting an
    application and then persisting it again, with the same features and
    score, leaves exactly one row for that ApplicationId, the row of the
    second write; the table has as many rows as after the first write, still
    satisfies the primary key, and is the very same table when the retry
    carries the same timestamp. *)
Theorem persist_idempotent t id f s ts ts' :
  primary_key t ->
  let once := persist id f s ts t in
  let twice := persist id f s ts' once in
  rows_of id twice = [make_row id f s ts']
  /\ length (rows_of id once) = 1%nat
  /\ length twice = length once
  /\ primary_key twice
  /\ (ts' = ts -> twice = once).
Proof.
  intros Hpk once twice. subst once twice. unfold persist.
  set (r := make_row id f s ts). set (r' := make_row id f s ts').
  pose proof (upsert_primary_key r t Hpk) as Hpk1.
  pose proof (upsert_primary_key r' _ Hpk1) as Hpk2.
  split. { apply (rows_of_unique r' _ Hpk2), upsert_elem. }
  split. { change id with (application_id r).
           by rewrite (rows_of_unique r _ Hpk1) by apply upsert_elem. }
  split. { apply upsert_present. change (application_id r') with (application_id r).
           apply list_elem_of_fmap_2, upsert_elem. }
  split; [exact Hpk2|].
  intros ->. apply upsert_twice.
Qed.

Lemma persist_idempotent_witness :
  primary_key []
  /\ rows_of "a-1" (persist "a-1" sample_features (42 # 100) 1700000060
                      (persist "a-1" sample_features (42 # 100) 1700000000 []))
     = [make_row "a-1" sample_features (42 # 100) 1700000060].
Proof.
  assert (primary_key []) as Hpk by (unfold primary_key; simpl; apply NoDup_nil_2).
  split; [exact Hpk|].
  exact (proj1 (persist_idempotent [] "a-1" sample_features (42 # 100)
                  1700000000 1700000060 Hpk)).
Defined.

(** The primary key alone already forbids a second row: a plain INSERT of
    a key that is present is rejected, and an accepted one keeps the key. *)
Lemma insert_primary_key r t t' :
  primary_key t -> insert_row r t = Some t' -> primary_key t'.
Proof.
  unfold insert_row, primary_key. intros Hpk H. case_decide as Hin; [discriminate|].
  injection H as <-. rewrite map_app. apply NoDup_app. split; [done|].
  split; [|apply NoDup_singleton]. intros x Hx ->%list_elem_of_singleton. done.
Qed.

Lemma insert_conflict r t : r ∈ t -> insert_row r t = None.
Proof.
  intros Hin. unfold insert_row. rewrite decide_True; [done|].
  by apply list_elem_of_fmap_2.
Qed.

End StoreFacts.

(** ** Terminal records of one execution *)








(** ** Dispatcher and idempotency ledger *)

Section DispatcherFacts.

Import Dispatcher.



















Example readmitted_after_expiry :
  started (dispatch [Deliver 10 "A1"; Deliver 3609 "A1"; Deliver 3610 "A1"] empty_state)
  = [("A1", 0%nat); ("A1", 1%nat)].
Proof. vm_compute. reflexivity. Qed.

Example delivered_twice_at_once :
  admissions "A1" [Deliver 10 "A1"; Deliver 10 "A1"] empty_state
  = [Granted 0; AlreadyInProgress]
  /\ minted_for "A1" [Deliver 10 "A1"; Deliver 10 "A1"] empty_state = [0%nat].
Proof. vm_compute. by split. Qed.

Example redelivered_after_success :
  admissions "A1" [Deliver 10 "A1"; WorkflowSucceeded 0; Deliver 12 "A1"] empty_state
  = [Granted 0; AlreadyCompleted].
Proof. vm_compute. reflexivity. Qed.

Example redelivery_suppressed :
  started (dispatch [Deliver 10 "A1"; Deliver 11 "A1"; WorkflowSucceeded 0; Deliver 12 "A1"]
             empty_state)
  = [("A1", 0%nat)].
Proof. vm_compute. reflexivity. Qed.

End DispatcherFacts.

(** * Part III: further properties of the code *)

(** ** The state machine: answers, timeouts, transient errors *)

(** The trace records the answers of the world in order: invocation number
    [n + i] is on the input of the state and has the outcome of the world's
    answer to it. *)
Lemma run_attempts_answers fuel w name t input rs n evs o :
  run_attempts fuel w name t input rs n = Some (evs, o) ->
  invocations name evs
  = map (fun i => (input, attempt_outcome t (respond w (Resource t) i input)))
        (seq n (length (invocations name evs))).
Proof.
  revert rs n evs o. induction fuel as [|fuel IH]; intros rs n evs o H; [discriminate|].
  simpl in H. destruct (attempt_outcome t _) as [v|e c] eqn:Eo.
  - injection H as <- <-. simpl. rewrite String.eqb_refl. simpl. by rewrite Eo.
  - destruct (next_retry rs e) as [[[r k] rs']|] eqn:En.
    + destruct (run_attempts fuel w name t input rs' (S n)) as [[evs' o']|] eqn:E;
        [|discriminate].
      injection H as <- <-. apply IH in E. simpl. rewrite String.eqb_refl. simpl.
      rewrite Eo. f_equal. exact E.
    + injection H as <- <-. simpl. rewrite String.eqb_refl. simpl. by rewrite Eo.
Qed.

Lemma stage_catch st : Catch (stage_task st) = [catch_all ["errorInfo"] DLQ].
Proof. by destruct st. Qed.

Lemma timeout_not_retryable st : retryable (Retry (stage_task st)) "States.Timeout" = false.
Proof. by destruct st. Qed.

Lemma timed_out_outcome t r : timed_out t r = true -> attempt_outcome t r = Failure "States.Timeout" "".
Proof. intros H. unfold attempt_outcome. by rewrite H. Qed.

(** X1. A stage attempt that runs past the TimeoutSeconds of its state is
    never retried: it is the last invocation of the stage, and the state hands
    over to SendToDLQ with the error States.Timeout stored under errorInfo. *)
Theorem timeout_is_never_retried w exec_input st m input :
  task_input exec_input (stage_task st) (JObj m) = Some input ->
  exists evs step,
    exec_task w exec_input (stage_name st) (stage_task st) (JObj m) = Some (evs, step)
    /\ forall i,
        (i < length (invocations (stage_name st) evs))%nat ->
        timed_out (stage_task st) (respond w (Resource (stage_task st)) i input) = true ->
        S i = length (invocations (stage_name st) evs)
        /\ step = Goto DLQ (JObj (<["errorInfo" := error_info "States.Timeout" ""]> m)).
Proof.
  intros Hin.
  destruct (exec_task_catch_all w exec_input (stage_name st) (stage_task st) (JObj m) input
              ["errorInfo"] DLQ Hin (stage_catch st)) as (evs & o & Ht & Hex).
  exists evs, (after_task (stage_task st) ["errorInfo"] DLQ (JObj m) o).
  split; [exact Hex|]. intros i Hi Hto.
  pose proof (run_attempts_answers _ _ _ _ _ _ _ _ _ Ht) as Hans.
  destruct (run_attempts_invocations _ _ _ _ _ _ _ _ _ Ht) as (fs & Hinv & Hfs & _ & _).
  rewrite fresh_counts_retriers in Hfs.
  assert (length (invocations (stage_name st) evs) = S (length fs)) as Hlen.
  { rewrite Hinv, length_map, length_app. simpl. lia. }
  assert ((fs ++ [o]) !! i = Some (Failure "States.Timeout" "")) as Hith.
  { assert (invocations (stage_name st) evs !! i
            = Some (input, Failure "States.Timeout" "")) as Hl.
    { rewrite Hans, list_lookup_fmap, lookup_seq_lt by exact Hi. simpl.
      by rewrite (timed_out_outcome _ _ Hto). }
    rewrite Hinv, list_lookup_fmap in Hl.
    destruct ((fs ++ [o]) !! i) as [x|]; [|discriminate]. simpl in Hl. congruence. }
  destruct (decide (i < length fs)%nat) as [Hlt|Hge].
  - rewrite lookup_app_l in Hith by exact Hlt.
    rewrite Forall_forall in Hfs.
    destruct (Hfs _ (list_elem_of_lookup_2 _ _ _ Hith)) as (e & c & [= <- <-] & Hr).
    rewrite timeout_not_retryable in Hr. discriminate.
  - assert (i = length fs) as -> by lia.
    rewrite lookup_app_r, Nat.sub_diag in Hith by lia. injection Hith as ->.
    split; [lia|]. apply after_caught.
Qed.

Lemma timeout_is_never_retried_witness :
  task_input (JObj application) (stage_task Score) (JObj score_state) = Some (JObj ∅)
  /\ exists evs step,
      exec_task score_slow (JObj application) SCORE CallScoringService (JObj score_state)
      = Some (evs, step)
      /\ forall i,
          (i < length (invocations SCORE evs))%nat ->
          timed_out CallScoringService
            (respond score_slow (Resource CallScoringService) i (JObj ∅)) = true ->
          S i = length (invocations SCORE evs)
          /\ step = Goto DLQ (JObj (<["errorInfo" := error_info "States.Timeout" ""]> score_state)).
Proof.
  assert (task_input (JObj application) (stage_task Score) (JObj score_state)
          = Some (JObj ∅)) as Hin by (vm_compute; reflexivity).
  split; [exact Hin|].
  exact (timeout_is_never_retried score_slow (JObj application) Score score_state (JObj ∅) Hin).
Defined.

Example score_slow_times_out :
  exec_task score_slow (JObj application) SCORE CallScoringService (JObj score_state)
  = Some ([Invoked SCORE 0 (JObj ∅) (Failure "States.Timeout" "")],
          Goto DLQ (JObj (<["errorInfo" := error_info "States.Timeout" ""]> score_state))).
Proof. vm_compute. reflexivity. Qed.

(** Failures the single retrier names, then a success within its budget:
    the loop returns the success after one invocation per failure and one
    more. *)
Lemma run_attempts_recover fuel w name t input r used n k v :
  (forall i, (i < k)%nat -> exists e c,
      attempt_outcome t (respond w (Resource t) (n + i) input) = Failure e c
      /\ error_matches (Retrier.ErrorEquals r) e = true) ->
  attempt_outcome t (respond w (Resource t) (n + k) input) = Success v ->
  (used + k <= Retrier.MaxAttempts r)%nat ->
  (k < fuel)%nat ->
  exists evs,
    run_attempts fuel w name t input [(r, used)] n = Some (evs, Success v)
    /\ length (invocations name evs) = S k
    /\ length (sleeps name evs) = k.
Proof.
  revert used n k. induction fuel as [|fuel IH]; intros used n k Hfail Hok Hle Hlt; [lia|].
  simpl. destruct k as [|k].
  - rewrite Nat.add_0_r in Hok. rewrite Hok. eexists. split; [reflexivity|].
    simpl. by rewrite String.eqb_refl.
  - destruct (Hfail 0%nat) as (e & c & He & Hm); [lia|].
    rewrite Nat.add_0_r in He. rewrite He, Hm.
    destruct (Nat.ltb_spec used (Retrier.MaxAttempts r)); [|lia].
    destruct (IH (S used) (S n) k) as (evs & -> & Hi & Hs).
    + intros i Hi. destruct (Hfail (S i)) as (e' & c' & He' & Hm'); [lia|].
      exists e', c'. by rewrite Nat.add_succ_comm.
    + by rewrite Nat.add_succ_comm.
    + lia.
    + lia.
    + eexists. split; [reflexivity|]. simpl. rewrite String.eqb_refl. simpl.
      by rewrite Hi, Hs.
Qed.

(** X2. Transient errors are absorbed: when a stage function fails [k]
    times with errors its retrier names, [k] being at most MaxAttempts, and
    then answers in time, the stage succeeds after [k + 1] invocations and [k]
    sleeps, and the workflow goes on as if the first attempt had succeeded. *)
Theorem transient_errors_absorbed w exec_input st r m input k v :
  Retry (stage_task st) = [r] ->
  task_input exec_input (stage_task st) (JObj m) = Some input ->
  (k <= Retrier.MaxAttempts r)%nat ->
  (forall i, (i < k)%nat -> exists e c,
      attempt_outcome (stage_task st) (respond w (Resource (stage_task st)) i input)
      = Failure e c
      /\ error_matches (Retrier.ErrorEquals r) e = true) ->
  attempt_outcome (stage_task st) (respond w (Resource (stage_task st)) k input) = Success v ->
  exists evs,
    exec_task w exec_input (stage_name st) (stage_task st) (JObj m)
    = Some (evs, success_step st m v)
    /\ length (invocations (stage_name st) evs) = S k
    /\ length (sleeps (stage_name st) evs) = k.
Proof.
  intros Hr Hin Hk Hfail Hok.
  destruct (run_attempts_recover (S (budget (fresh_counts (stage_task st)))) w
              (stage_name st) (stage_task st) input r 0 0 k v) as (evs & Ht & Hi & Hs).
  { intros i Hi. simpl. by apply Hfail. }
  { exact Hok. }
  { lia. }
  { unfold fresh_counts. rewrite Hr. simpl. lia. }
  assert (task_attempts w (stage_name st) (stage_task st) input = Some (evs, Success v))
    as Ht'.
  { unfold task_attempts. unfold fresh_counts in *. rewrite Hr in *. exact Ht. }
  exists evs. split; [|by split].
  unfold exec_task. rewrite Hin, Ht'. by destruct st.
Qed.

Lemma transient_errors_absorbed_witness :
  (Retry (stage_task Score) = [score_retrier]
   /\ task_input (JObj application) (stage_task Score) (JObj score_state) = Some (JObj ∅)
   /\ (2 <= Retrier.MaxAttempts score_retrier)%nat)
  /\ exists evs,
      exec_task score_flaky (JObj application) SCORE CallScoringService (JObj score_state)
      = Some (evs, success_step Score score_state (JNum (1 # 4)))
      /\ length (invocations SCORE evs) = 3%nat
      /\ length (sleeps SCORE evs) = 2%nat.
Proof.
  assert (task_input (JObj application) (stage_task Score) (JObj score_state)
          = Some (JObj ∅)) as Hin by (vm_compute; reflexivity).
  assert (2 <= Retrier.MaxAttempts score_retrier)%nat as Hk by (simpl; lia).
  split; [split; [reflexivity | split; [exact Hin | exact Hk]]|].
  apply (transient_errors_absorbed score_flaky (JObj application) Score score_retrier
           score_state (JObj ∅) 2 (JNum (1 # 4)) eq_refl Hin Hk); [|reflexivity].
  intros i Hi. exists "Lambda.TooManyRequestsException", "throttled".
  destruct i as [|[|i]]; [split; reflexivity | split; reflexivity | lia].
Defined.

(** ** The state machine: time spent sleeping *)

(** With a single retrier the sleeps are those of retries [used + 1],
    [used + 2], ... in order, each of the delay of its number. *)
Lemma run_attempts_single_sleeps fuel w name t input r used n evs o :
  run_attempts fuel w name t input [(r, used)] n = Some (evs, o) ->
  sleeps name evs
  = map (fun k => (k, retry_delay r k (jitter w name k)))
        (seq (S used) (length (sleeps name evs)))
  /\ (used <= Retrier.MaxAttempts r ->
      used + length (sleeps name evs) <= Retrier.MaxAttempts r)%nat.
Proof.
  revert used n evs o. induction fuel as [|fuel IH]; intros used n evs o H; [discriminate|].
  simpl in H. destruct (attempt_outcome t _) as [v|e c].
  - injection H as <- <-. simpl. split; [reflexivity | lia].
  - destruct (error_matches (Retrier.ErrorEquals r) e).
    + destruct (Nat.ltb_spec used (Retrier.MaxAttempts r)) as [Hu|Hu].
      * destruct (run_attempts fuel w name t input [(r, S used)] (S n)) as [[evs' o']|] eqn:E;
          [|discriminate].
        injection H as <- <-. apply IH in E as [Hs Hle]. simpl.
        rewrite String.eqb_refl. simpl. split; [by f_equal | lia].
      * injection H as <- <-. simpl. split; [reflexivity | lia].
    + injection H as <- <-. simpl. split; [reflexivity | lia].
Qed.

Lemma clean_delay k u :
  (1 <= k <= 2)%nat -> (0 <= retry_delay clean_retrier k u <= 3 * (3 # 2) ^ (Z.of_nat k - 1))%Q.
Proof.
  intros Hk. assert (k = 1 \/ k = 2)%nat as [-> | ->] by lia;
    vm_compute; split; discriminate.
Qed.

Lemma total_sleep_bound (ds : list (nat * Q)) (bounds : list Q) :
  Forall2 (fun kd b => (0 <= kd.2 <= b)%Q) ds bounds ->
  (0 <= foldr Qplus 0 (map snd ds) <= foldr Qplus 0 bounds)%Q.
Proof.
  induction 1 as [|[k d] b ds bounds [H0 H1] _ [IH0 IH1]]; simpl.
  - split; discriminate.
  - split.
    + replace 0%Q with (0 + 0)%Q by reflexivity. by apply Qplus_le_compat.
    + by apply Qplus_le_compat.
Qed.

(** Bounds the sum of an explicit list of sleeps by the sum of the bounds
    found among the hypotheses for each of them. *)
Ltac sleep_bound :=
  match goal with
  | |- (0 <= foldr Qplus 0 (map snd ?ds))%Q /\ _ =>
      let H := fresh in
      eassert (Forall2 (fun kd b => (0 <= kd.2 <= b)%Q) ds _) as H
        by (repeat (constructor; [simpl; eassumption|]); constructor);
      apply total_sleep_bound in H as [? ?];
      split; [assumption | eapply Qle_trans; [eassumption | vm_compute; discriminate]]
  end.

(** X3. Whatever the stage functions answer, with jitter draws in [0, 1] a
    stage sleeps at most 7.5 seconds in all for CLEAN and at most 35 seconds
    in all for SCORE and for PERSIST. *)
Theorem backoff_time_bounded w st input :
  (forall s k, (0 <= jitter w s k)%Q /\ (jitter w s k <= 1)%Q) ->
  exists evs o,
    task_attempts w (stage_name st) (stage_task st) input = Some (evs, o)
    /\ (0 <= total_sleep (stage_name st) evs)%Q
    /\ (total_sleep (stage_name st) evs <= sleep_budget st)%Q.
Proof.
  intros Hu.
  destruct (task_attempts_total w (stage_name st) (stage_task st) input) as (evs & o & Ht).
  exists evs, o. split; [exact Ht|]. unfold total_sleep.
  assert (exists r, fresh_counts (stage_task st) = [(r, 0%nat)]
                    /\ Retry (stage_task st) = [r]) as (r & Hfc & Hr)
    by (destruct st; eexists; split; reflexivity).
  unfold task_attempts in Ht. rewrite Hfc in Ht.
  destruct (run_attempts_single_sleeps _ _ _ _ _ _ _ _ _ _ Ht) as [Hs Hle].
  specialize (Hle (Nat.le_0_l _)). simpl in Hle.
  set (len := length (sleeps (stage_name st) evs)) in *.
  assert (forall k, (1 <= k)%nat ->
            r = score_retrier \/ r = persist_retrier ->
            (0 <= retry_delay r k (jitter w (stage_name st) k)
             <= 5 * 2 ^ (Z.of_nat k - 1))%Q) as Hfull.
  { intros k Hk Hrr. destruct (Hu (stage_name st) k) as [H0 H1].
    apply full_jitter_bounds; try done; by destruct Hrr as [-> | ->]. }
  rewrite Hs.
  destruct st; simpl in Hr; injection Hr as <-; simpl in Hle.
  - pose proof (clean_delay 1 (jitter w CLEAN 1) ltac:(lia)) as H1.
    pose proof (clean_delay 2 (jitter w CLEAN 2) ltac:(lia)) as H2.
    assert (len = 0 \/ len = 1 \/ len = 2)%nat as [-> | [-> | ->]] by lia;
      cbn [seq]; sleep_bound.
  - pose proof (Hfull 1%nat ltac:(lia) (or_introl eq_refl)) as H1.
    pose proof (Hfull 2%nat ltac:(lia) (or_introl eq_refl)) as H2.
    pose proof (Hfull 3%nat ltac:(lia) (or_introl eq_refl)) as H3.
    assert (len = 0 \/ len = 1 \/ len = 2 \/ len = 3)%nat as [-> | [-> | [-> | ->]]] by lia;
      cbn [seq]; sleep_bound.
  - pose proof (Hfull 1%nat ltac:(lia) (or_intror eq_refl)) as H1.
    pose proof (Hfull 2%nat ltac:(lia) (or_intror eq_refl)) as H2.
    pose proof (Hfull 3%nat ltac:(lia) (or_intror eq_refl)) as H3.
    assert (len = 0 \/ len = 1 \/ len = 2 \/ len = 3)%nat as [-> | [-> | [-> | ->]]] by lia;
      cbn [seq]; sleep_bound.
Qed.

Lemma backoff_time_bounded_witness :
  (forall s k, (0 <= jitter score_unavailable s k)%Q /\ (jitter score_unavailable s k <= 1)%Q)
  /\ exists evs o,
      task_attempts score_unavailable SCORE CallScoringService (JObj ∅) = Some (evs, o)
      /\ (0 <= total_sleep SCORE evs)%Q
      /\ (total_sleep SCORE evs <= sleep_budget Score)%Q.
Proof.
  assert (forall s k, (0 <= jitter score_unavailable s k)%Q
                      /\ (jitter score_unavailable s k <= 1)%Q) as Hu.
  { intros s k. simpl. split; discriminate. }
  split; [exact Hu|].
  exact (backoff_time_bounded score_unavailable Score (JObj ∅) Hu).
Defined.

Lemma persist_receives_state_witness :
  (execute riskEvaluation all_up (JObj application) = Some (all_up_trace, all_up_result)
   /\ Invoked PERSIST 0 (JObj (<["risk_score" := JNum (42 # 100)]> cleaned))
        (Success (JObj (<["risk_score" := JNum (42 # 100)]> cleaned))) ∈ all_up_trace)
  /\ exists cm s,
      (CLEAN, Success (JObj cm)) ∈ stage_calls all_up_trace
      /\ (SCORE, Success s) ∈ stage_calls all_up_trace
      /\ JObj (<["risk_score" := JNum (42 # 100)]> cleaned) = JObj (<["risk_score" := s]> cm).
Proof.
  assert (execute riskEvaluation all_up (JObj application)
          = Some (all_up_trace, all_up_result)) as Hrun by (vm_compute; reflexivity).
  assert (Invoked PERSIST 0 (JObj (<["risk_score" := JNum (42 # 100)]> cleaned))
            (Success (JObj (<["risk_score" := JNum (42 # 100)]> cleaned))) ∈ all_up_trace)
    as Hin.
  { apply (list_elem_of_lookup_2 _ 5). vm_compute. reflexivity. }
  split; [split; [exact Hrun | exact Hin]|].
  exact (persist_receives_state all_up application all_up_trace all_up_result 0 _ _ Hrun Hin).
Defined.

(** ** The state machine: every execution ends *)

Lemma find_catcher_next cs e cr :
  find_catcher cs e = Some cr -> Catcher.Next cr ∈ map Catcher.Next cs.
Proof.
  induction cs as [|c cs IH]; simpl; [discriminate|].
  destruct (error_matches (Catcher.ErrorEquals c) e).
  - intros [= ->]. left.
  - intros H. right. by apply IH.
Qed.

(** A task state always returns, enters no state by itself, and hands over
    only to one of its targets. *)
Lemma exec_task_targets w exec_input name t data :
  exists evs step,
    exec_task w exec_input name t data = Some (evs, step)
    /\ entered evs = []
    /\ forall next d, step = Goto next d -> next ∈ targets (Task t).
Proof.
  unfold exec_task. destruct (task_input exec_input t data) as [input|].
  2: { eexists _, _. split; [reflexivity|]. split; [reflexivity|]. discriminate. }
  destruct (task_attempts_total w name t input) as (evs & o & Ht). rewrite Ht.
  pose proof (task_attempts_entered _ _ _ _ _ _ Ht) as He.
  destruct o as [v|e c].
  - destruct (set_path (ResultPath t) v data) as [d'|];
      eexists _, _; (split; [reflexivity|]); (split; [exact He|]); [|discriminate].
    intros next d. simpl. destruct (transition t); [|discriminate].
    intros [= <- _]. left.
  - destruct (find_catcher (Catch t) e) as [cr|] eqn:Ec.
    + destruct (set_path (Catcher.ResultPath cr) (error_info e c) data) as [d'|];
        eexists _, _; (split; [reflexivity|]); (split; [exact He|]); [|discriminate].
      intros next d [= <- _]. simpl. apply elem_of_app. right.
      by eapply find_catcher_next.
    + eexists _, _. split; [reflexivity|]. split; [exact He|]. discriminate.
Qed.

(** On a machine whose transitions go up a rank below [bound], a run from
    a state of the machine with enough fuel returns; it enters no state twice,
    none of lower rank than the one it starts in, and at most one per unit of
    fuel. *)
Lemma run_ranked m rank bound w exec_input :
  ranked m rank ->
  (forall name, is_Some (States m !! name) -> (rank name < bound)%nat) ->
  forall fuel cur data,
    is_Some (States m !! cur) ->
    (bound <= fuel + rank cur)%nat ->
    exists evs r,
      run fuel m w exec_input cur data = Some (evs, r)
      /\ NoDup (entered evs)
      /\ Forall (fun a => (rank cur <= rank a)%nat) (entered evs)
      /\ (length (entered evs) <= fuel)%nat.
Proof.
  intros Hranked Hbound. induction fuel as [|fuel IH]; intros cur data Hcur Hfuel.
  - specialize (Hbound _ Hcur). lia.
  - simpl. destruct Hcur as [s Hs]. rewrite Hs. destruct s as [t|f].
    + destruct (exec_task_targets w exec_input cur t data) as (evs & step & -> & He & Hgo).
      destruct step as [next d|r].
      * destruct (Hranked cur (Task t) next Hs (Hgo _ _ eq_refl)) as [Hnext Hlt].
        destruct (IH next d Hnext) as (evs' & r & -> & Hnd & Hall & Hlen); [lia|].
        eexists _, _. split; [reflexivity|].
        change (Entered cur :: evs ++ evs') with ([Entered cur] ++ evs ++ evs').
        rewrite !entered_app, He. simpl. split; [|split].
        -- constructor; [|exact Hnd]. intros Hin.
           rewrite Forall_forall in Hall. specialize (Hall _ Hin). lia.
        -- constructor; [lia|].
           eapply Forall_impl; [exact Hall|]. simpl. intros a Ha. lia.
        -- lia.
      * eexists _, _. split; [reflexivity|].
        change (Entered cur :: evs) with ([Entered cur] ++ evs).
        rewrite entered_app, He. simpl.
        split; [apply NoDup_singleton|]. split; [by repeat constructor | lia].
    + eexists _, _. split; [reflexivity|]. simpl.
      split; [apply NoDup_singleton|]. split; [by repeat constructor | lia].
Qed.

Lemma riskEvaluation_states name s :
  States riskEvaluation !! name = Some s ->
  (name, s) ∈ [ (CLEAN, Task CleanAndFeatureEngineer);
                (SCORE, Task CallScoringService);
                (PERSIST, Task PersistScoredApplication);
                (DLQ, Task SendToDLQ);
                ("ProcessingFailed", Fail ProcessingFailed) ].
Proof. apply elem_of_list_to_map_2. Qed.

Lemma riskEvaluation_ranked : ranked riskEvaluation state_rank.
Proof.
  intros name s next Hs Hin. apply riskEvaluation_states in Hs.
  repeat (apply elem_of_cons in Hs as [[= -> ->] | Hs]); [..|by apply elem_of_nil in Hs];
    simpl in Hin;
    repeat (apply elem_of_cons in Hin as [-> | Hin]); try (by apply elem_of_nil in Hin);
    (split; [by eexists; first [apply state_clean | apply state_score | apply state_persist
                                | apply state_dlq | apply state_failed]
            | vm_compute; lia]).
Qed.

Lemma riskEvaluation_rank_bound name :
  is_Some (States riskEvaluation !! name) -> (state_rank name < 5)%nat.
Proof.
  intros [s Hs]. apply riskEvaluation_states in Hs.
  repeat (apply elem_of_cons in Hs as [[= -> ->] | Hs]); [..|by apply elem_of_nil in Hs];
    vm_compute; lia.
Qed.

(** X5. Every execution of the definition ends, on any JSON input and
    whatever the tasks answer: the five steps the interpreter allows are
    enough, because no state is ever entered twice. *)
Theorem execution_always_ends w (input : json) :
  exists evs r,
    execute riskEvaluation w input = Some (evs, r)
    /\ NoDup (entered evs)
    /\ (length (entered evs) <= 5)%nat.
Proof.
  unfold execute. rewrite riskEvaluation_size.
  destruct (run_ranked riskEvaluation state_rank 5 w input riskEvaluation_ranked
              riskEvaluation_rank_bound 5 (StartAt riskEvaluation) input)
    as (evs & r & Hrun & Hnd & _ & Hlen).
  { exists (Task CleanAndFeatureEngineer). apply state_clean. }
  { lia. }
  by exists evs, r.
Qed.

(** ** The state machine: the work of one execution *)

Lemma calls_app a b : calls (a ++ b) = calls a ++ calls b.
Proof. apply omap_app. Qed.

Lemma naps_app a b : naps (a ++ b) = naps a ++ naps b.
Proof. apply omap_app. Qed.

Lemma events_of_calls name input evs :
  events_of name input evs ->
  length (calls evs) = length (invocations name evs)
  /\ length (naps evs) = length (sleeps name evs).
Proof.
  induction 1 as [|ev evs Hev _ [IHc IHn]]; [done|].
  destruct ev as [s|s a i o|s k d]; simpl in *; [done| |].
  - destruct Hev as [-> _]. rewrite String.eqb_refl. simpl. by rewrite IHc.
  - subst s. rewrite String.eqb_refl. simpl. by rewrite IHn.
Qed.

Lemma task_attempts_work w name t input evs o :
  task_attempts w name t input = Some (evs, o) ->
  (length (calls evs) <= S (budget (fresh_counts t)))%nat
  /\ (length (naps evs) <= budget (fresh_counts t))%nat.
Proof.
  intros H. destruct (task_attempts_bound _ _ _ _ _ _ H) as [Hc Hn].
  apply task_attempts_events, events_of_calls in H as [-> ->]. by split.
Qed.

(** X4. One execution invokes functions at most 12 times in all (3 for
    CLEAN, 4 for SCORE, 4 for PERSIST and 1 for the dead letter) and sleeps
    between attempts at most 8 times, whatever the functions answer. *)
Theorem execution_work_bounded w fields evs r :
  execute riskEvaluation w (JObj fields) = Some (evs, r) ->
  (length (calls evs) <= 12)%nat /\ (length (naps evs) <= 8)%nat.
Proof.
  intros Hrun. apply execute_inv in Hrun.
  destruct Hrun as [aC e c tl r HC HD | aC out HC Hf | aC cm f aS e c tl r HC Hf HS HD
                   | aC cm f aS s aP e c tl r HC Hf HS HP HD | aC cm f aS s aP out HC Hf HS HP];
    try (apply dead_lettered_inv in HD as (_ & oD & -> & _));
    apply task_attempts_work in HC as [HCc HCn];
    try apply task_attempts_work in HS as [HSc HSn];
    try apply task_attempts_work in HP as [HPc HPn];
    change (budget (fresh_counts CleanAndFeatureEngineer)) with 2%nat in *;
    change (budget (fresh_counts CallScoringService)) with 3%nat in *;
    change (budget (fresh_counts PersistScoredApplication)) with 3%nat in *;
    repeat (rewrite ?calls_app, ?naps_app, ?length_app;
            change (calls (Entered ?s :: ?l)) with (calls l);
            change (naps (Entered ?s :: ?l)) with (naps l));
    rewrite ?calls_app, ?naps_app, ?length_app; simpl; lia.
Qed.

Lemma execution_work_bounded_witness :
  execute riskEvaluation all_up (JObj application) = Some (all_up_trace, all_up_result)
  /\ (length (calls all_up_trace) <= 12)%nat /\ (length (naps all_up_trace) <= 8)%nat.
Proof.
  assert (execute riskEvaluation all_up (JObj application)
          = Some (all_up_trace, all_up_result)) as Hrun by (vm_compute; reflexivity).
  split; [exact Hrun|].
  exact (execution_work_bounded all_up application all_up_trace all_up_result Hrun).
Defined.

(** ** The state machine: the stage a dead letter names *)

(** X24. Whichever stage ended the execution in failure, CLEAN, SCORE or
    PERSIST, the dead letter names CleanAndFeatureEngineer as its failedStage:
    the field is a constant of the definition, not the stage that failed. *)
Theorem failed_stage_is_constant w fields evs e0 c0 :
  execute riskEvaluation w (JObj fields) = Some (evs, Failed e0 c0) ->
  exists name e,
    last (stage_calls evs) = Some (name, Failure e c0)
    /\ map (get_path ["failedStage"]) (dead_letters evs)
       = [Some (JStr "CleanAndFeatureEngineer")].
Proof.
  intros Hrun. apply execute_inv in Hrun.
  destruct (execution_failed _ _ _ _ _ _ Hrun eq_refl)
    as (pre & name & e & o & _ & -> & _ & Hlast & Hinv & _ & _).
  exists name, e. split.
  - rewrite stage_calls_app.
    change (stage_calls (dlq_tail _ _)) with (@nil (string * Outcome)).
    by rewrite app_nil_r.
  - rewrite (dead_letters_tail _ _ _ _ Hinv).
    destruct (dlq_body_fields (error_info e c0) (JObj fields)) as (Hs & _).
    unfold map, get_path. by rewrite Hs.
Qed.

Lemma failed_stage_is_constant_witness :
  (execute riskEvaluation score_down (JObj application)
   = Some (score_down_trace, Failed APP_FAILED "no model")
   /\ last (stage_calls score_down_trace)
      = Some (SCORE, Failure "ModelNotFound" "no model"))
  /\ exists name e,
       last (stage_calls score_down_trace) = Some (name, Failure e "no model")
       /\ map (get_path ["failedStage"]) (dead_letters score_down_trace)
          = [Some (JStr "CleanAndFeatureEngineer")].
Proof.
  assert (execute riskEvaluation score_down (JObj application)
          = Some (score_down_trace, Failed APP_FAILED "no model")) as Hrun
    by (vm_compute; reflexivity).
  split; [split; [exact Hrun | vm_compute; reflexivity]|].
  exact (failed_stage_is_constant score_down application score_down_trace
           APP_FAILED "no model" Hrun).
Defined.

(** ** The dashboard: page controls *)

Section PaginationFacts.

Import Pagination.

Lemma window_bounds cur total :
  (1 <= cur <= total)%Z ->
  (1 <= startPage cur total <= cur)%Z
  /\ (cur <= endPage cur total <= total)%Z
  /\ (5 < total -> endPage cur total - startPage cur total + 1 = 5)%Z
  /\ (total <= 5 -> endPage cur total = total)%Z.
Proof.
  intros Hcur. unfold startPage, endPage, firstStartPage, maxPagesToShow.
  change (5 / 2)%Z with 2%Z.
  destruct (Z.gtb_spec total 5);
    destruct (Z.ltb_spec (Z.min total (Z.max 1 (cur - 2) + 5 - 1) - Z.max 1 (cur - 2) + 1) 5);
    simpl; lia.
Qed.

(** X6. For a current page between 1 and [totalPages], the window of page
    numbers runs over consecutive pages from [startPage] to [endPage], lies
    within 1..totalPages and contains the current page; it has exactly 5 pages
    when there are more than 5 pages, and otherwise ends at the last page. *)
Theorem page_window cur total :
  (1 <= cur <= total)%Z ->
  (forall p, p ∈ pageNumbers cur total
             <-> (startPage cur total <= p <= endPage cur total)%Z)
  /\ (1 <= startPage cur total)%Z /\ (endPage cur total <= total)%Z
  /\ cur ∈ pageNumbers cur total
  /\ (5 < total -> length (pageNumbers cur total) = 5%nat)%Z
  /\ (total <= 5 -> endPage cur total = total)%Z.
Proof.
  intros Hcur. destruct (window_bounds cur total Hcur) as (Hs & He & H5 & Hle).
  assert (forall p, p ∈ pageNumbers cur total
                    <-> (startPage cur total <= p <= endPage cur total)%Z) as Hmem.
  { intros p. unfold pageNumbers. rewrite elem_of_seqZ. lia. }
  split; [exact Hmem|]. split; [lia|]. split; [lia|]. split; [apply Hmem; lia|].
  split; [|exact Hle].
  intros Htot. unfold pageNumbers. rewrite length_seqZ, (H5 Htot). reflexivity.
Qed.

Lemma page_window_witness :
  (1 <= 19 <= 20)%Z
  /\ (forall p, p ∈ pageNumbers 19 20 <-> (startPage 19 20 <= p <= endPage 19 20)%Z)
     /\ (1 <= startPage 19 20)%Z /\ (endPage 19 20 <= 20)%Z
     /\ 19%Z ∈ pageNumbers 19 20
     /\ (5 < 20 -> length (pageNumbers 19 20) = 5%nat)%Z
     /\ (20 <= 5 -> endPage 19 20 = 20)%Z.
Proof.
  assert (1 <= 19 <= 20)%Z as H by lia.
  split; [exact H|]. exact (page_window 19 20 H).
Defined.

Example page_window_near_end : pageNumbers 19 20 = [16; 17; 18; 19; 20]%Z.
Proof. reflexivity. Qed.

Example page_window_few_pages : pageNumbers 4 4 = [2; 3; 4]%Z.
Proof. reflexivity. Qed.

Lemma render_elements cur total es e :
  PaginationControls cur total = Some es ->
  e ∈ es ->
  e = Button Previous (handlePrevious cur) (cur =? 1)%Z
  \/ (e = Button (PageNumber 1) (Some 1%Z) false /\ (1 < startPage cur total)%Z)
  \/ e = Ellipsis
  \/ (exists n, e = Button (PageNumber n) (Some n) (cur =? n)%Z
                /\ n ∈ pageNumbers cur total)
  \/ (e = Button (PageNumber total) (Some total) false /\ (endPage cur total < total)%Z)
  \/ e = Button NextPage (handleNext cur total) (cur =? total)%Z.
Proof.
  unfold PaginationControls. destruct (total <=? 1)%Z; [discriminate|].
  intros [= <-]. rewrite elem_of_cons, !elem_of_app, list_elem_of_fmap, list_elem_of_singleton.
  intros [->|[Hin|[(n & -> & Hn)|[Hin| ->]]]]; eauto 10.
  - destruct (Z.gtb_spec (startPage cur total) 1); [|by apply elem_of_nil in Hin].
    apply elem_of_cons in Hin as [->|Hin]; [right; left; split; [done | lia]|].
    destruct (startPage cur total >? 2)%Z; [|by apply elem_of_nil in Hin].
    apply list_elem_of_singleton in Hin as ->. eauto.
  - destruct (Z.ltb_spec (endPage cur total) total); [|by apply elem_of_nil in Hin].
    apply elem_of_app in Hin as [Hin|Hin].
    + destruct (endPage cur total <? total - 1)%Z; [|by apply elem_of_nil in Hin].
      apply list_elem_of_singleton in Hin as ->. eauto.
    + apply list_elem_of_singleton in Hin as ->. eauto 10.
Qed.

Lemma click_in_range cur total es e p :
  (1 <= cur <= total)%Z ->
  PaginationControls cur total = Some es ->
  e ∈ es ->
  click e = Some p ->
  (1 <= p <= total)%Z /\ p <> cur.
Proof.
  intros Hcur Hes He Hclick.
  destruct (window_bounds cur total Hcur) as (Hs & Hend & _ & _).
  destruct (render_elements _ _ _ _ Hes He)
    as [->|[[-> H1]|[->|[(n & -> & Hn)|[[-> Ht]| ->]]]]]; simpl in Hclick.
  - unfold handlePrevious in Hclick. destruct (Z.eqb_spec cur 1); [discriminate|].
    destruct (Z.gtb_spec cur 1); [|discriminate]. injection Hclick as <-. lia.
  - injection Hclick as <-. lia.
  - discriminate.
  - destruct (Z.eqb_spec cur n); [discriminate|]. injection Hclick as <-.
    unfold pageNumbers in Hn. rewrite elem_of_seqZ in Hn. lia.
  - injection Hclick as <-. lia.
  - unfold handleNext in Hclick. destruct (Z.eqb_spec cur total); [discriminate|].
    destruct (Z.ltb_spec cur total); [|discriminate]. injection Hclick as <-. lia.
Qed.


(** X7. On a valid current page, whatever is clicked in the controls asks
    for a page between 1 and [totalPages] that is not the current one: no
    click leaves the range, and no enabled button reloads the page shown. *)
Theorem clicks_stay_in_range cur total es e p :
  (1 <= cur <= total)%Z ->
  PaginationControls cur total = Some es ->
  e ∈ es ->
  click e = Some p ->
  (1 <= p <= total)%Z /\ p <> cur.
Proof. apply click_in_range. Qed.

Lemma clicks_stay_in_range_witness :
  ((1 <= 3 <= 12)%Z
   /\ PaginationControls 3 12
      = Some [Button Previous (Some 2%Z) false;
              Button (PageNumber 1) (Some 1%Z) false;
              Button (PageNumber 2) (Some 2%Z) false;
              Button (PageNumber 3) (Some 3%Z) true;
              Button (PageNumber 4) (Some 4%Z) false;
              Button (PageNumber 5) (Some 5%Z) false;
              Ellipsis;
              Button (PageNumber 12) (Some 12%Z) false;
              Button NextPage (Some 4%Z) false]
   /\ click (Button (PageNumber 12) (Some 12%Z) false) = Some 12%Z)
  /\ (1 <= 12 <= 12)%Z /\ 12%Z <> 3%Z.
Proof.
  assert (1 <= 3 <= 12)%Z as Hcur by lia.
  assert (PaginationControls 3 12
          = Some [Button Previous (Some 2%Z) false;
                  Button (PageNumber 1) (Some 1%Z) false;
                  Button (PageNumber 2) (Some 2%Z) false;
                  Button (PageNumber 3) (Some 3%Z) true;
                  Button (PageNumber 4) (Some 4%Z) false;
                  Button (PageNumber 5) (Some 5%Z) false;
                  Ellipsis;
                  Button (PageNumber 12) (Some 12%Z) false;
                  Button NextPage (Some 4%Z) false]) as Hes by reflexivity.
  split; [split; [exact Hcur | split; [exact Hes | reflexivity]]|].
  apply (clicks_stay_in_range 3 12 _ (Button (PageNumber 12) (Some 12%Z) false) 12 Hcur Hes);
    [|reflexivity].
  apply (list_elem_of_lookup_2 _ 7). reflexivity.
Defined.

Lemma numbered_page_buttons cur l :
  numbered ((fun number => Button (PageNumber number) (Some number) (cur =? number)%Z) <$> l) = l.
Proof.
  induction l as [|n l IH]; [done|].
  change (n :: numbered ((fun number => Button (PageNumber number) (Some number) (cur =? number)%Z) <$> l)
          = n :: l).
  by rewrite IH.
Qed.

Lemma numbered_controls cur total es :
  PaginationControls cur total = Some es ->
  numbered es
  = (if (startPage cur total >? 1)%Z then [1%Z] else [])
    ++ pageNumbers cur total
    ++ (if (endPage cur total <? total)%Z then [total] else []).
Proof.
  unfold PaginationControls. destruct (total <=? 1)%Z; [discriminate|].
  intros [= <-]. unfold numbered at 1. cbn.
  rewrite !omap_app. fold (numbered ((fun number => Button (PageNumber number) (Some number) (cur =? number)%Z) <$> pageNumbers cur total)).
  rewrite numbered_page_buttons. simpl.
  destruct (startPage cur total >? 1)%Z, (startPage cur total >? 2)%Z,
    (endPage cur total <? total)%Z, (endPage cur total <? total - 1)%Z;
    simpl; by rewrite ?app_nil_r.
Qed.

Lemma elem_of_numbered cur total es p :
  PaginationControls cur total = Some es ->
  p ∈ numbered es
  <-> (p = 1%Z /\ (1 < startPage cur total)%Z)
      \/ (startPage cur total <= p <= endPage cur total)%Z
      \/ (p = total /\ (endPage cur total < total)%Z).
Proof.
  intros Hes. rewrite (numbered_controls _ _ _ Hes), !elem_of_app.
  unfold pageNumbers. rewrite elem_of_seqZ.
  destruct (Z.gtb_spec (startPage cur total) 1), (Z.ltb_spec (endPage cur total) total);
    rewrite ?list_elem_of_singleton, ?elem_of_nil; lia.
Qed.

Lemma ellipsis_shown cur total es :
  PaginationControls cur total = Some es ->
  Ellipsis ∈ es <-> (2 < startPage cur total)%Z \/ (endPage cur total < total - 1)%Z.
Proof.
  unfold PaginationControls. destruct (total <=? 1)%Z; [discriminate|].
  intros [= <-]. rewrite elem_of_cons, !elem_of_app, list_elem_of_fmap, list_elem_of_singleton.
  destruct (Z.gtb_spec (startPage cur total) 1), (Z.gtb_spec (startPage cur total) 2),
    (Z.ltb_spec (endPage cur total) total), (Z.ltb_spec (endPage cur total) (total - 1));
    rewrite ?elem_of_cons, ?elem_of_app, ?list_elem_of_singleton, ?elem_of_nil;
    split; try lia; intros Hin; repeat destruct Hin as [Hin|Hin]; try discriminate;
    try (destruct Hin as (? & ? & ?); discriminate); try lia; try done; auto 10.
Qed.

(** X8. On a valid current page the controls always offer the neighbouring
    pages and both ends: unless the current page is the first, something
    clickable leads to the previous page and to page 1; unless it is the last,
    something clickable leads to the next page and to the last page. *)
Theorem neighbours_and_ends_reachable cur total es :
  (1 <= cur <= total)%Z ->
  PaginationControls cur total = Some es ->
  ((1 < cur)%Z ->
   (exists e, e ∈ es /\ click e = Some (cur - 1)%Z)
   /\ exists e, e ∈ es /\ click e = Some 1%Z)
  /\ ((cur < total)%Z ->
      (exists e, e ∈ es /\ click e = Some (cur + 1)%Z)
      /\ exists e, e ∈ es /\ click e = Some total).
Proof.
  intros Hcur Hes.
  destruct (window_bounds cur total Hcur) as (Hs & Hend & _ & _).
  revert Hes. unfold PaginationControls. destruct (total <=? 1)%Z; [discriminate|].
  intros [= <-].
  assert (forall n, (startPage cur total <= n <= endPage cur total)%Z -> n <> cur ->
            exists e, e ∈ (fun number => Button (PageNumber number) (Some number) (cur =? number)%Z)
                            <$> pageNumbers cur total
                      /\ click e = Some n) as Hwin.
  { intros n Hn Hne. eexists. split.
    - apply list_elem_of_fmap. exists n. split; [reflexivity|].
      unfold pageNumbers. apply elem_of_seqZ. lia.
    - simpl. destruct (Z.eqb_spec cur n); [congruence | reflexivity]. }
  split.
  - intros H1. split.
    + eexists. split; [apply elem_of_cons; left; reflexivity|].
      simpl. unfold handlePrevious. destruct (Z.eqb_spec cur 1); [lia|].
      destruct (Z.gtb_spec cur 1); [reflexivity | lia].
    + destruct (Z.gtb_spec (startPage cur total) 1) as [Hgt|Hle].
      * exists (Button (PageNumber 1) (Some 1%Z) false). split; [|reflexivity].
        apply elem_of_cons; right. apply elem_of_app; left.
        apply elem_of_cons; left. reflexivity.
      * destruct (Hwin 1%Z) as (e & He & Hc); [lia | lia |].
        exists e. split; [|exact Hc].
        apply elem_of_cons; right. apply elem_of_app; right. apply elem_of_app; left. exact He.
  - intros H1. split.
    + eexists. split.
      * apply elem_of_cons; right. do 3 (apply elem_of_app; right).
        apply list_elem_of_singleton. reflexivity.
      * simpl. unfold handleNext. destruct (Z.eqb_spec cur total); [lia|].
        destruct (Z.ltb_spec cur total); [reflexivity | lia].
    + destruct (Z.ltb_spec (endPage cur total) total) as [Hlt|Hge].
      * exists (Button (PageNumber total) (Some total) false). split; [|reflexivity].
        apply elem_of_cons; right. do 2 (apply elem_of_app; right). apply elem_of_app; left.
        apply elem_of_app; right. apply list_elem_of_singleton. reflexivity.
      * destruct (Hwin total) as (e & He & Hc); [lia | lia |].
        exists e. split; [|exact Hc].
        apply elem_of_cons; right. apply elem_of_app; right. apply elem_of_app; left. exact He.
Qed.

Lemma neighbours_and_ends_reachable_witness :
  ((1 <= 7 <= 9)%Z
   /\ PaginationControls 7 9 = Some controls_7_of_9)
  /\ ((1 < 7)%Z ->
      (exists e, e ∈ controls_7_of_9 /\ click e = Some (7 - 1)%Z)
      /\ exists e, e ∈ controls_7_of_9 /\ click e = Some 1%Z)
  /\ ((7 < 9)%Z ->
      (exists e, e ∈ controls_7_of_9 /\ click e = Some (7 + 1)%Z)
      /\ exists e, e ∈ controls_7_of_9 /\ click e = Some 9%Z).
Proof.
  assert (1 <= 7 <= 9)%Z as Hcur by lia.
  split; [split; [exact Hcur | reflexivity]|].
  apply (neighbours_and_ends_reachable 7 9 _ Hcur). reflexivity.
Defined.

Lemma numbered_lookup cur total es i a :
  (1 <= cur <= total)%Z ->
  PaginationControls cur total = Some es ->
  numbered es !! i = Some a ->
  let shortcut := (if (startPage cur total >? 1)%Z then 1 else 0)%Z in
  (a = 1%Z /\ Z.of_nat i = 0%Z /\ (1 < startPage cur total)%Z)
  \/ (a = startPage cur total + (Z.of_nat i - shortcut)
      /\ shortcut <= Z.of_nat i
      /\ a <= endPage cur total)%Z
  \/ (a = total /\ (endPage cur total < total)%Z
      /\ Z.of_nat i = shortcut + (endPage cur total - startPage cur total + 1))%Z.
Proof.
  intros Hcur Hes Ha.
  destruct (window_bounds cur total Hcur) as (Hs & Hend & _ & _).
  rewrite (numbered_controls _ _ _ Hes) in Ha. unfold pageNumbers in Ha.
  apply lookup_app_Some in Ha as [Ha|[Hai Ha]];
    [|apply lookup_app_Some in Ha as [Ha|[Hai' Ha]]].
  - destruct (Z.gtb_spec (startPage cur total) 1); [|by rewrite lookup_nil in Ha].
    apply list_lookup_singleton_Some in Ha as [-> <-]. simpl. lia.
  - apply lookup_seqZ in Ha as [-> Hlt].
    destruct (Z.gtb_spec (startPage cur total) 1); simpl in *; lia.
  - rewrite length_seqZ in Hai', Ha.
    destruct (Z.ltb_spec (endPage cur total) total); [|by rewrite lookup_nil in Ha].
    apply list_lookup_singleton_Some in Ha as [Hi <-].
    destruct (Z.gtb_spec (startPage cur total) 1); simpl in *; lia.
Qed.

(** X9. The numbered buttons are in strictly increasing order of page, all
    within 1..totalPages: the shortcuts to the first and to the last page never
    repeat a page of the window, so no page has two numbered buttons. *)
Theorem page_buttons_increasing cur total es i j a b :
  (1 <= cur <= total)%Z ->
  PaginationControls cur total = Some es ->
  numbered es !! i = Some a ->
  numbered es !! j = Some b ->
  (i < j)%nat ->
  (1 <= a)%Z /\ (a < b)%Z /\ (b <= total)%Z.
Proof.
  intros Hcur Hes Ha Hb Hij.
  destruct (window_bounds cur total Hcur) as (Hs & Hend & _ & _).
  apply (numbered_lookup _ _ _ _ _ Hcur Hes) in Ha, Hb.
  destruct (Z.gtb_spec (startPage cur total) 1); lia.
Qed.

Lemma page_buttons_increasing_witness :
  ((1 <= 7 <= 9)%Z
   /\ PaginationControls 7 9 = Some controls_7_of_9
   /\ numbered controls_7_of_9 !! 0%nat = Some 1%Z
   /\ numbered controls_7_of_9 !! 5%nat = Some 9%Z
   /\ (0 < 5)%nat)
  /\ (1 <= 1)%Z /\ (1 < 9)%Z /\ (9 <= 9)%Z.
Proof.
  assert (1 <= 7 <= 9)%Z as Hcur by lia.
  split; [split; [exact Hcur | split; [reflexivity | split; [reflexivity | split; [reflexivity | lia]]]]|].
  apply (page_buttons_increasing 7 9 controls_7_of_9 0 5 1 9 Hcur eq_refl);
    [reflexivity | reflexivity | lia].
Defined.

(** X10. An ellipsis is rendered exactly when some page between 1 and
    [totalPages] has no numbered button. *)
Theorem ellipsis_iff_page_hidden cur total es :
  (1 <= cur <= total)%Z ->
  PaginationControls cur total = Some es ->
  Ellipsis ∈ es <-> exists p, (1 <= p <= total)%Z /\ p ∉ numbered es.
Proof.
  intros Hcur Hes.
  destruct (window_bounds cur total Hcur) as (Hs & Hend & _ & _).
  rewrite (ellipsis_shown _ _ _ Hes). split.
  - intros [H|H].
    + exists 2%Z. split; [lia|]. rewrite (elem_of_numbered _ _ _ _ Hes). lia.
    + exists (total - 1)%Z. split; [lia|]. rewrite (elem_of_numbered _ _ _ _ Hes). lia.
  - intros (p & Hp & Hnot). rewrite (elem_of_numbered _ _ _ _ Hes) in Hnot. lia.
Qed.

Lemma ellipsis_iff_page_hidden_witness :
  ((1 <= 7 <= 9)%Z
   /\ PaginationControls 7 9 = Some controls_7_of_9)
  /\ (Ellipsis ∈ controls_7_of_9
      <-> exists p, (1 <= p <= 9)%Z /\ p ∉ numbered controls_7_of_9).
Proof.
  assert (1 <= 7 <= 9)%Z as Hcur by lia.
  split; [split; [exact Hcur | reflexivity]|].
  apply (ellipsis_iff_page_hidden 7 9 _ Hcur). reflexivity.
Defined.

End PaginationFacts.

(** ** The dashboard: the applications table *)

Section TableFacts.

Import ApplicationsTable.

Lemma ceil_div_spec n d :
  (0 < d)%Z -> ((ceil_div n d - 1) * d < n <= ceil_div n d * d)%Z.
Proof.
  intros Hd. unfold ceil_div.
  pose proof (Z.div_mod (- n) d ltac:(lia)) as Hdm.
  pose proof (Z.mod_pos_bound (- n) d Hd) as Hm. nia.
Qed.

Lemma ceil_div_pos n d : (0 < d)%Z -> (0 < n)%Z -> (1 <= ceil_div n d)%Z.
Proof. intros Hd Hn. pose proof (ceil_div_spec n d Hd). nia. Qed.

Lemma ceil_div_nonneg n d : (0 < d)%Z -> (0 <= n)%Z -> (0 <= ceil_div n d)%Z.
Proof. intros Hd Hn. pose proof (ceil_div_spec n d Hd). nia. Qed.

Lemma take_min {A} (n : nat) (l : list A) : take (n `min` length l) l = take n l.
Proof.
  destruct (Nat.le_gt_cases n (length l)) as [Hle|Hgt].
  - by rewrite Nat.min_l.
  - rewrite Nat.min_r by lia. by rewrite !take_ge by lia.
Qed.

Lemma displayed_take_drop {A} (apps : list A) p ipp :
  (0 < ipp)%Z -> (1 <= p)%Z ->
  displayedApps apps p ipp
  = take (Z.to_nat ipp) (drop (Z.to_nat (p - 1) * Z.to_nat ipp) apps).
Proof.
  intros Hipp Hp. unfold displayedApps.
  destruct (Z.gtb_spec (Z.of_nat (length apps)) 0) as [Hlen|Hlen].
  - unfold slice. cbv zeta.
    assert (0 <= (p - 1) * ipp)%Z as Hs by nia.
    destruct (Z.ltb_spec ((p - 1) * ipp) 0); [lia|].
    destruct (Z.ltb_spec ((p - 1) * ipp + ipp) 0); [lia|].
    replace (Z.to_nat (p - 1) * Z.to_nat ipp)%nat with (Z.to_nat ((p - 1) * ipp)) by nia.
    destruct (Z.le_gt_cases ((p - 1) * ipp) (Z.of_nat (length apps))) as [Hin|Hout].
    + rewrite (Z.min_l ((p - 1) * ipp)) by lia.
      rewrite <- (take_min (Z.to_nat ipp)). rewrite length_drop. f_equal. lia.
    + rewrite !Z.min_r by lia. rewrite !drop_ge by lia. by rewrite !take_nil.
  - destruct apps; [|simpl in Hlen; lia]. by rewrite drop_nil, take_nil.
Qed.

Lemma chunks_concat {A} (n : nat) (l : list A) (k : nat) :
  concat ((fun i => take n (drop (i * n) l)) <$> seq 0 k) = take (k * n) l.
Proof.
  induction k as [|k IH]; [done|].
  rewrite seq_S, fmap_app, concat_app, IH. simpl. rewrite app_nil_r.
  rewrite take_take_drop. f_equal. lia.
Qed.

Lemma displayed_length {A} (apps : list A) p ipp :
  (0 < ipp)%Z -> (1 <= p)%Z ->
  Z.of_nat (length (displayedApps apps p ipp))
  = Z.max 0 (Z.min ipp (Z.of_nat (length apps) - (p - 1) * ipp)).
Proof.
  intros Hipp Hp. rewrite displayed_take_drop by done.
  rewrite length_take, length_drop. nia.
Qed.

(** X11. With a positive page size, the pages 1..totalPages shown one after
    the other are exactly the fetched applications, in order: paging drops
    nothing and repeats nothing. *)
Theorem pages_partition {A} (apps : list A) ipp :
  (0 < ipp)%Z ->
  concat ((fun p => displayedApps apps p ipp)
            <$> seqZ 1 (ceil_div (Z.of_nat (length apps)) ipp))
  = apps.
Proof.
  intros Hipp.
  pose proof (ceil_div_spec (Z.of_nat (length apps)) ipp Hipp) as Hc.
  pose proof (ceil_div_nonneg (Z.of_nat (length apps)) ipp Hipp ltac:(lia)) as Hc0.
  unfold seqZ. rewrite <- list_fmap_compose.
  rewrite (list_fmap_ext _ (fun i => take (Z.to_nat ipp) (drop (i * Z.to_nat ipp) apps))).
  - rewrite chunks_concat. apply take_ge. nia.
  - intros i x _. simpl. rewrite displayed_take_drop by lia. do 2 f_equal. lia.
Qed.

Lemma pages_partition_witness :
  (0 < 2)%Z
  /\ concat ((fun p => displayedApps [10; 20; 30; 40; 50]%Z p 2)
               <$> seqZ 1 (ceil_div (Z.of_nat (length [10; 20; 30; 40; 50]%Z)) 2))
     = [10; 20; 30; 40; 50]%Z.
Proof.
  assert (0 < 2)%Z as H by lia.
  split; [exact H|]. exact (pages_partition [10; 20; 30; 40; 50]%Z 2 H).
Defined.

(** X12. With a positive page size, every page before the last shows
    exactly [itemsPerPage] rows, the last page shows between 1 and
    [itemsPerPage], and any page after the last shows none. *)
Theorem page_sizes {A} (apps : list A) p ipp :
  (0 < ipp)%Z -> (1 <= p)%Z ->
  let T := ceil_div (Z.of_nat (length apps)) ipp in
  ((p < T)%Z -> Z.of_nat (length (displayedApps apps p ipp)) = ipp)
  /\ (p = T -> (0 < Z.of_nat (length (displayedApps apps p ipp)) <= ipp)%Z)
  /\ ((T < p)%Z -> displayedApps apps p ipp = []).
Proof.
  intros Hipp Hp T.
  pose proof (ceil_div_spec (Z.of_nat (length apps)) ipp Hipp) as Hc. fold T in Hc.
  pose proof (displayed_length apps p ipp Hipp Hp) as Hl.
  split; [|split].
  - intros Hlt. nia.
  - intros ->. nia.
  - intros Hgt. apply length_zero_iff_nil. nia.
Qed.

Lemma page_sizes_witness :
  ((0 < 2)%Z /\ (1 <= 3)%Z)
  /\ let T := ceil_div (Z.of_nat (length [10; 20; 30; 40; 50]%Z)) 2 in
     ((3 < T)%Z -> Z.of_nat (length (displayedApps [10; 20; 30; 40; 50]%Z 3 2)) = 2%Z)
     /\ (3%Z = T -> (0 < Z.of_nat (length (displayedApps [10; 20; 30; 40; 50]%Z 3 2)) <= 2)%Z)
     /\ ((T < 3)%Z -> displayedApps [10; 20; 30; 40; 50]%Z 3 2 = []).
Proof.
  assert (0 < 2)%Z as H by lia. assert (1 <= 3)%Z as H' by lia.
  split; [split; [exact H | exact H']|].
  exact (page_sizes [10; 20; 30; 40; 50]%Z 3 2 H H').
Defined.

(** *** Fetching all pages *)

Lemma fetch_inv {A} (api : Z -> Response A) ipp fuel :
  forall acc off tc r,
    fetchAllPages fuel api ipp acc off tc = Some r ->
    allFetchedApps r = acc ++ concat (page api <$> requests r)
    /\ totalPages r = ceil_div (Z.of_nat (length (allFetchedApps r))) ipp
    /\ (forall i o, requests r !! i = Some o -> o = (off + apiPageLimit * Z.of_nat i)%Z)
    /\ (forall i o, requests r !! i = Some o -> (S i < length (requests r))%nat ->
                    Z.of_nat (length (page api o)) = apiPageLimit).
Proof.
  induction fuel as [|fuel IH]; intros acc off tc r; simpl; [discriminate|].
  destruct (applications (api off)) as [apps|] eqn:Happs.
  - destruct (Z.eqb_spec (Z.of_nat (length apps)) apiPageLimit) as [Hfull|Hshort]; simpl.
    + match goal with
      | |- context [if ?c then _ else _] => destruct c eqn:Hmore
      end.
      * destruct (fetchAllPages fuel api ipp _ _ _) as [r'|] eqn:Hrec; [|discriminate].
        intros [= <-]. apply IH in Hrec as (Hall & Htot & Hoff & Hfullp).
        simpl. split; [|split; [exact Htot|split]].
        -- rewrite Hall. unfold page at 2. rewrite Happs. simpl. by rewrite <- app_assoc.
        -- intros [|i] o; simpl; [intros [= <-]; lia|].
           intros Ho. apply Hoff in Ho. lia.
        -- intros [|i] o; simpl.
           ++ intros [= <-] _. unfold page. by rewrite Happs.
           ++ intros Ho Hi. apply (Hfullp i); [exact Ho | lia].
      * intros [= <-]. simpl. unfold page. rewrite Happs. simpl. rewrite app_nil_r.
        split; [done|]. split; [done|]. split.
        -- intros [|i] o; simpl; [intros [= <-]; lia | discriminate].
        -- intros [|i] o; simpl; [lia | discriminate].
    + intros [= <-]. simpl. unfold page. rewrite Happs. simpl. rewrite app_nil_r.
      split; [done|]. split; [done|]. split.
      * intros [|i] o; simpl; [intros [= <-]; lia | discriminate].
      * intros [|i] o; simpl; [lia | discriminate].
  - intros [= <-]. simpl. unfold page. rewrite Happs. simpl. rewrite app_nil_r.
    split; [done|]. split; [done|]. split.
    + intros [|i] o; simpl; [intros [= <-]; lia | discriminate].
    + intros [|i] o; simpl; [lia | discriminate].
Qed.

(** X13. When loading finishes, the i-th request asked for offset 1000*i,
    every response but the last carried exactly 1000 applications, the table
    holds the responses' applications in the order they were requested, and
    [totalPages] is the number of pages that this many rows need. *)
Theorem fetch_collects_pages {A} (api : Z -> Response A) ipp fuel r :
  loadAllData fuel api ipp = Some r ->
  (forall i o, requests r !! i = Some o -> o = (1000 * Z.of_nat i)%Z)
  /\ (forall i o, requests r !! i = Some o -> (S i < length (requests r))%nat ->
                  length (page api o) = 1000%nat)
  /\ allFetchedApps r = concat (page api <$> requests r)
  /\ totalPages r = ceil_div (Z.of_nat (length (allFetchedApps r))) ipp.
Proof.
  intros Hload. apply fetch_inv in Hload as (Hall & Htot & Hoff & Hfull).
  split; [|split; [|split]].
  - intros i o Ho. apply Hoff in Ho. unfold apiPageLimit in Ho. lia.
  - intros i o Ho Hi. pose proof (Hfull i o Ho Hi) as H. unfold apiPageLimit in H. lia.
  - exact Hall.
  - exact Htot.
Qed.

Lemma fetch_collects_pages_witness :
  loadAllData 5 (serving 2500 1000) 50
  = Some {| allFetchedApps := seqZ 0 2500; totalPages := 50; requests := [0; 1000; 2000]%Z |}
  /\ (forall i o, [0; 1000; 2000]%Z !! i = Some o -> o = (1000 * Z.of_nat i)%Z)
  /\ (forall i o, [0; 1000; 2000]%Z !! i = Some o -> (S i < 3)%nat ->
                  length (page (serving 2500 1000) o) = 1000%nat)
  /\ seqZ 0 2500 = concat (page (serving 2500 1000) <$> [0; 1000; 2000]%Z)
  /\ 50%Z = ceil_div (Z.of_nat (length (seqZ 0 2500))) 50.
Proof.
  assert (loadAllData 5 (serving 2500 1000) 50
          = Some {| allFetchedApps := seqZ 0 2500; totalPages := 50;
                    requests := [0; 1000; 2000]%Z |}) as Hload
    by (vm_compute; reflexivity).
  split; [exact Hload|].
  exact (fetch_collects_pages (serving 2500 1000) 50 5 _ Hload).
Defined.

Lemma ceil_div_step n d : (0 < d)%Z -> ceil_div (n - d) d = (ceil_div n d - 1)%Z.
Proof.
  intros Hd. unfold ceil_div.
  replace (- (n - d))%Z with (- n + 1 * d)%Z by lia.
  rewrite Z.div_add by lia. lia.
Qed.

Lemma fetch_bounded {A} (api : Z -> Response A) ipp t fuel :
  forall acc off,
    (0 < off)%Z ->
    (Z.to_nat (Z.max 1 (ceil_div (t - off) apiPageLimit)) <= fuel)%nat ->
    exists r,
      fetchAllPages fuel api ipp acc off (Some t) = Some r
      /\ (length (requests r) <= Z.to_nat (Z.max 1 (ceil_div (t - off) apiPageLimit)))%nat.
Proof.
  induction fuel as [|fuel IH]; intros acc off Hoff Hfuel; [lia|]. simpl.
  destruct (applications (api off)) as [apps|]; [|eexists; split; [reflexivity | simpl; lia]].
  destruct (Z.eqb_spec off 0) as [|_]; [lia|].
  destruct (Z.eqb_spec (Z.of_nat (length apps)) apiPageLimit) as [Hfull|Hshort]; simpl;
    [|eexists; split; [reflexivity | simpl; lia]].
  destruct (Z.ltb_spec (off + Z.of_nat (length apps)) t) as [Hlt|Hge];
    [|eexists; split; [reflexivity | simpl; lia]].
  rewrite Hfull in *.
  pose proof (ceil_div_step (t - off) apiPageLimit ltac:(done)) as Hstep.
  pose proof (ceil_div_spec (t - off) apiPageLimit ltac:(done)) as Hspec.
  replace (t - off - apiPageLimit)%Z with (t - (off + apiPageLimit))%Z in Hstep by lia.
  assert (2 <= ceil_div (t - off) apiPageLimit)%Z as H2 by (unfold apiPageLimit in *; nia).
  destruct (IH (acc ++ apps) (off + apiPageLimit)%Z) as (r & -> & Hlen);
    [unfold apiPageLimit; lia | lia |].
  eexists. split; [reflexivity|]. simpl. lia.
Qed.

(** X14. If the first response reports a total count [t], loading always
    finishes, after at most ceil(t / 1000) requests (one request when [t] is
    not positive), whatever the later responses are. *)
Theorem fetch_finishes_with_count {A} (api : Z -> Response A) ipp t fuel :
  totalCount (api 0%Z) = Some t ->
  (Z.to_nat (Z.max 1 (ceil_div t 1000)) <= fuel)%nat ->
  exists r,
    loadAllData fuel api ipp = Some r
    /\ (length (requests r) <= Z.to_nat (Z.max 1 (ceil_div t 1000)))%nat.
Proof.
  intros Ht Hfuel. unfold loadAllData.
  destruct fuel as [|fuel]; [lia|]. simpl. rewrite Ht.
  destruct (applications (api 0%Z)) as [apps|]; [|eexists; split; [reflexivity | simpl; lia]].
  rewrite !Z.add_0_l.
  destruct (Z.eqb_spec (Z.of_nat (length apps)) apiPageLimit) as [Hfull|Hshort]; simpl;
    [|eexists; split; [reflexivity | simpl; lia]].
  destruct (Z.ltb_spec (Z.of_nat (length apps)) t) as [Hlt|Hge];
    [|eexists; split; [reflexivity | simpl; lia]].
  rewrite Hfull in *.
  pose proof (ceil_div_step t apiPageLimit ltac:(done)) as Hstep.
  pose proof (ceil_div_spec t apiPageLimit ltac:(done)) as Hspec.
  change 1000%Z with apiPageLimit in *.
  assert (2 <= ceil_div t apiPageLimit)%Z as H2 by (unfold apiPageLimit in *; nia).
  destruct (fetch_bounded api ipp t fuel apps apiPageLimit) as (r & -> & Hlen);
    [done | lia |].
  eexists. split; [reflexivity|]. simpl. lia.
Qed.

Lemma fetch_finishes_with_count_witness :
  (totalCount (serving 2500 1000 0%Z) = Some 2500%Z
   /\ (Z.to_nat (Z.max 1 (ceil_div 2500 1000)) <= 3)%nat)
  /\ exists r,
       loadAllData 3 (serving 2500 1000) 50 = Some r
       /\ (length (requests r) <= Z.to_nat (Z.max 1 (ceil_div 2500 1000)))%nat.
Proof.
  assert (totalCount (serving 2500 1000 0%Z) = Some 2500%Z) as Ht by reflexivity.
  assert (Z.to_nat (Z.max 1 (ceil_div 2500 1000)) <= 3)%nat as Hfuel by (vm_compute; lia).
  split; [split; [exact Ht | exact Hfuel]|].
  exact (fetch_finishes_with_count (serving 2500 1000) 50 2500 3 Ht Hfuel).
Defined.

(** X15. A first response with fewer (or more) than 1000 applications ends
    the fetch after that one request, also when its [totalCount] says that
    more records exist: the table then holds the first page only. *)
Theorem short_first_page_ends_fetch {A} (api : Z -> Response A) ipp fuel apps :
  applications (api 0%Z) = Some apps ->
  length apps <> 1000%nat ->
  loadAllData (S fuel) api ipp
  = Some {| allFetchedApps := apps;
            totalPages := ceil_div (Z.of_nat (length apps)) ipp;
            requests := [0%Z] |}.
Proof.
  intros Happs Hshort. unfold loadAllData. simpl. rewrite Happs.
  destruct (Z.eqb_spec (Z.of_nat (length apps)) apiPageLimit) as [Hfull|_];
    [unfold apiPageLimit in Hfull; lia|].
  reflexivity.
Qed.

Lemma short_first_page_ends_fetch_witness :
  (applications (serving 250 100 0%Z) = Some (seqZ 0 100)
   /\ totalCount (serving 250 100 0%Z) = Some 250%Z
   /\ length (seqZ 0 100) <> 1000%nat)
  /\ loadAllData 4 (serving 250 100) 50
     = Some {| allFetchedApps := seqZ 0 100;
               totalPages := ceil_div (Z.of_nat (length (seqZ 0 100))) 50;
               requests := [0%Z] |}.
Proof.
  assert (applications (serving 250 100 0%Z) = Some (seqZ 0 100)) as Happs by reflexivity.
  assert (length (seqZ 0 100) <> 1000%nat) as Hshort by (vm_compute; lia).
  split; [split; [exact Happs | split; [reflexivity | exact Hshort]]|].
  exact (short_first_page_ends_fetch (serving 250 100) 50 3 _ Happs Hshort).
Defined.

Lemma fetch_unbounded {A} (api : Z -> Response A) ipp fuel :
  (forall o, exists apps, applications (api o) = Some apps
                          /\ Z.of_nat (length apps) = apiPageLimit) ->
  totalCount (api 0%Z) = None ->
  forall acc off, fetchAllPages fuel api ipp acc off None = None.
Proof.
  intros Hfull Hcount. induction fuel as [|fuel IH]; intros acc off; [done|]. simpl.
  destruct (Hfull off) as (apps & -> & Hlen). rewrite Hlen, Z.eqb_refl. simpl.
  destruct (Z.eqb_spec off 0) as [->|_]; [rewrite Hcount|]; simpl; by rewrite IH.
Qed.

(** X16. Against an API that fills every page with 1000 applications and
    reports no total count on the first response, loading never finishes:
    nothing but a short page or a count stops the requests. *)
Theorem fetch_needs_short_page_or_count {A} (api : Z -> Response A) ipp :
  (forall o, exists apps, applications (api o) = Some apps /\ length apps = 1000%nat) ->
  totalCount (api 0%Z) = None ->
  forall fuel, loadAllData fuel api ipp = None.
Proof.
  intros Hfull Hcount fuel. apply fetch_unbounded; [|exact Hcount].
  intros o. destruct (Hfull o) as (apps & Happs & Hlen).
  exists apps. split; [exact Happs|]. unfold apiPageLimit. lia.
Qed.

Lemma fetch_needs_short_page_or_count_witness :
  ((forall o, exists apps, applications (endless o) = Some apps /\ length apps = 1000%nat)
   /\ totalCount (endless 0%Z) = None)
  /\ forall fuel, loadAllData fuel endless 50 = None.
Proof.
  assert (forall o, exists apps, applications (endless o) = Some apps
                                 /\ length apps = 1000%nat) as Hfull.
  { intros o. eexists. split; [reflexivity|]. by rewrite length_seqZ. }
  assert (totalCount (endless 0%Z) = None) as Hcount by reflexivity.
  split; [split; [exact Hfull | exact Hcount]|].
  exact (fetch_needs_short_page_or_count endless 50 Hfull Hcount).
Defined.

(** *** The table and its page controls *)

Lemma loaded_totalPages {A} (api : Z -> Response A) ipp fuel r :
  loadAllData fuel api ipp = Some r ->
  totalPages r = ceil_div (Z.of_nat (length (allFetchedApps r))) ipp.
Proof. intros Hload. by apply fetch_inv in Hload as (_ & Htot & _). Qed.

(** X17. After loading, with a positive page size and a current page
    within 1..totalPages, whatever is clicked in the controls under the table
    leads to a page that shows at least one row and at most [itemsPerPage]
    rows: no click ends on an empty page. *)
Theorem clicked_page_has_rows {A} (api : Z -> Response A) ipp fuel r cur es e p :
  loadAllData fuel api ipp = Some r ->
  (0 < ipp)%Z ->
  (1 <= cur <= totalPages r)%Z ->
  tableControls r cur = Some es ->
  e ∈ es ->
  Pagination.click e = Some p ->
  (0 < Z.of_nat (length (displayedApps (allFetchedApps r) p ipp)) <= ipp)%Z.
Proof.
  intros Hload Hipp Hcur Hes He Hclick.
  pose proof (loaded_totalPages _ _ _ _ Hload) as Htot.
  unfold tableControls in Hes.
  destruct (_ && _); [|discriminate].
  destruct (click_in_range _ _ _ _ _ Hcur Hes He Hclick) as [Hp _].
  pose proof (ceil_div_spec (Z.of_nat (length (allFetchedApps r))) ipp Hipp) as Hc.
  rewrite <- Htot in Hc.
  rewrite displayed_length by lia. nia.
Qed.

Lemma clicked_page_has_rows_witness :
  (loadAllData 2 (serving 120 1000) 50
   = Some {| allFetchedApps := seqZ 0 120; totalPages := 3; requests := [0%Z] |}
   /\ (0 < 50)%Z
   /\ (1 <= 1 <= 3)%Z
   /\ tableControls {| allFetchedApps := seqZ 0 120; totalPages := 3; requests := [0%Z] |} 1
      = Some [Pagination.Button Pagination.Previous None true;
              Pagination.Button (Pagination.PageNumber 1) (Some 1%Z) true;
              Pagination.Button (Pagination.PageNumber 2) (Some 2%Z) false;
              Pagination.Button (Pagination.PageNumber 3) (Some 3%Z) false;
              Pagination.Button Pagination.NextPage (Some 2%Z) false]
   /\ Pagination.click (Pagination.Button Pagination.NextPage (Some 2%Z) false) = Some 2%Z)
  /\ (0 < Z.of_nat (length (displayedApps (seqZ 0 120) 2 50)) <= 50)%Z.
Proof.
  assert (loadAllData 2 (serving 120 1000) 50
          = Some {| allFetchedApps := seqZ 0 120; totalPages := 3; requests := [0%Z] |})
    as Hload by (vm_compute; reflexivity).
  assert (0 < 50)%Z as Hipp by lia.
  assert (1 <= 1 <= 3)%Z as Hcur by lia.
  assert (tableControls {| allFetchedApps := seqZ 0 120; totalPages := 3;
                           requests := [0%Z] |} 1
          = Some [Pagination.Button Pagination.Previous None true;
                  Pagination.Button (Pagination.PageNumber 1) (Some 1%Z) true;
                  Pagination.Button (Pagination.PageNumber 2) (Some 2%Z) false;
                  Pagination.Button (Pagination.PageNumber 3) (Some 3%Z) false;
                  Pagination.Button Pagination.NextPage (Some 2%Z) false])
    as Hes by (vm_compute; reflexivity).
  split; [split; [exact Hload | split; [exact Hipp | split; [exact Hcur |
          split; [exact Hes | reflexivity]]]]|].
  apply (clicked_page_has_rows (serving 120 1000) 50 2 _ 1 _
           (Pagination.Button Pagination.NextPage (Some 2%Z) false) 2
           Hload Hipp Hcur Hes); [|reflexivity].
  apply (list_elem_of_lookup_2 _ 4). reflexivity.
Defined.

(** X18. After loading with a positive page size, the page controls are
    rendered under the table exactly when more applications were fetched than
    fit on one page. *)
Theorem controls_iff_more_than_a_page {A} (api : Z -> Response A) ipp fuel r cur :
  loadAllData fuel api ipp = Some r ->
  (0 < ipp)%Z ->
  is_Some (tableControls r cur) <-> (ipp < Z.of_nat (length (allFetchedApps r)))%Z.
Proof.
  intros Hload Hipp.
  pose proof (loaded_totalPages _ _ _ _ Hload) as Htot.
  pose proof (ceil_div_spec (Z.of_nat (length (allFetchedApps r))) ipp Hipp) as Hc.
  rewrite <- Htot in Hc.
  unfold tableControls, Pagination.PaginationControls.
  destruct (Z.gtb_spec (Z.of_nat (length (allFetchedApps r))) 0),
    (Z.gtb_spec (totalPages r) 1), (Z.leb_spec (totalPages r) 1); simpl;
    try lia; (split; [intros Hs; try (by destruct Hs); nia|intros Hs; try done; nia]).
Qed.

Lemma controls_iff_more_than_a_page_witness :
  (loadAllData 2 (serving 120 1000) 50
   = Some {| allFetchedApps := seqZ 0 120; totalPages := 3; requests := [0%Z] |}
   /\ (0 < 50)%Z)
  /\ (is_Some (tableControls {| allFetchedApps := seqZ 0 120; totalPages := 3;
                                requests := [0%Z] |} 1)
      <-> (50 < Z.of_nat (length (seqZ 0 120)))%Z).
Proof.
  assert (loadAllData 2 (serving 120 1000) 50
          = Some {| allFetchedApps := seqZ 0 120; totalPages := 3; requests := [0%Z] |})
    as Hload by (vm_compute; reflexivity).
  assert (0 < 50)%Z as Hipp by lia.
  split; [split; [exact Hload | exact Hipp]|].
  exact (controls_iff_more_than_a_page (serving 120 1000) 50 2 _ 1 Hload Hipp).
Defined.

End TableFacts.

(** ** The dashboard: the graphs *)

Section GraphFacts.

Import Graphs.

Lemma foldr_max_ge init counts :
  (init <= foldr Z.max init counts)%Z
  /\ forall c, c ∈ counts -> (c <= foldr Z.max init counts)%Z.
Proof.
  induction counts as [|x counts [IH0 IH]]; simpl.
  - split; [lia|]. intros c Hc. by apply elem_of_nil in Hc.
  - split; [lia|]. intros c Hc. apply elem_of_cons in Hc as [->|Hc]; [lia|].
    specialize (IH c Hc). lia.
Qed.

Lemma foldr_max_le init counts b :
  (init <= b)%Z -> (forall c, c ∈ counts -> (c <= b)%Z) ->
  (foldr Z.max init counts <= b)%Z.
Proof.
  intros Hi. induction counts as [|x counts IH]; simpl; intros Hb; [done|].
  apply Z.max_lub.
  - apply Hb. left.
  - apply IH. intros c Hc. apply Hb. by right.
Qed.

Lemma ceil_div_10 n : (10 * (ceil_div n 10 - 1) < n <= 10 * ceil_div n 10)%Z.
Proof.
  unfold ceil_div.
  pose proof (Z.div_mod (- n) 10 ltac:(lia)) as Hdm.
  pose proof (Z.mod_pos_bound (- n) 10 ltac:(lia)) as Hm. lia.
Qed.

(** X20. The step of the count axis of the risk graph is the smallest
    positive whole number of which ten steps reach the tallest bar: it is at
    least 1, no count exceeds ten steps, and no smaller positive step has that
    property. *)
Theorem stepSize_least_cover (counts : list Z) :
  (1 <= riskGraph_stepSize counts)%Z
  /\ (forall c, c ∈ counts -> (c <= 10 * riskGraph_stepSize counts)%Z)
  /\ (forall s, (1 <= s)%Z -> (forall c, c ∈ counts -> (c <= 10 * s)%Z) ->
                (riskGraph_stepSize counts <= s)%Z).
Proof.
  unfold riskGraph_stepSize.
  pose proof (ceil_div_10 (foldr Z.max 0%Z counts)) as Hc.
  destruct (foldr_max_ge 0%Z counts) as [H0 Hge].
  split; [lia|]. split.
  - intros c Hin. specialize (Hge c Hin). lia.
  - intros s Hs Hall.
    pose proof (foldr_max_le 0%Z counts (10 * s)%Z ltac:(lia) Hall). lia.
Qed.

(** X21. On the data it is drawn for, the count graph gets the same axis
    step as the risk graph would: leaving out the 0 in [Math.max(...counts)]
    changes nothing, because the step is raised to 1 anyway. *)
Theorem stepSize_graphs_agree (count : Z) (counts : list Z) :
  countGraph_stepSize count counts = riskGraph_stepSize (count :: counts).
Proof.
  unfold countGraph_stepSize, riskGraph_stepSize.
  pose proof (ceil_div_10 (foldr Z.max count counts)) as Hc.
  pose proof (ceil_div_10 (foldr Z.max 0%Z (count :: counts))) as Hr.
  destruct (foldr_max_ge count counts) as [Hc0 Hcge].
  destruct (foldr_max_ge 0%Z (count :: counts)) as [Hr0 Hrge].
  assert (foldr Z.max count counts <= foldr Z.max 0%Z (count :: counts))%Z as Hle.
  { apply foldr_max_le; [apply Hrge; left|]. intros c Hin. apply Hrge. by right. }
  assert (foldr Z.max 0%Z (count :: counts) <= Z.max 0 (foldr Z.max count counts))%Z as Hge.
  { apply foldr_max_le; [lia|]. intros c Hin.
    apply elem_of_cons in Hin as [->|Hin]; [lia|]. specialize (Hcge c Hin). lia. }
  lia.
Qed.

End GraphFacts.

(** ** The risk level *)

Section RiskLevelFacts.

Import Store.

(** X22. The generated risk level never goes down when the score goes up:
    a row with a higher (or equal) score is LOW, MEDIUM or HIGH in the same
    order. *)
Theorem risk_level_monotone (r1 r2 : Row) :
  (risk_score r1 <= risk_score r2)%Q ->
  (risk_rank (risk_level r1) <= risk_rank (risk_level r2))%nat.
Proof.
  intros Hle. unfold risk_level.
  destruct (Qle_bool (75 # 100) (risk_score r1)) eqn:H1h;
    destruct (Qle_bool (75 # 100) (risk_score r2)) eqn:H2h;
    destruct (Qle_bool (35 # 100) (risk_score r1)) eqn:H1m;
    destruct (Qle_bool (35 # 100) (risk_score r2)) eqn:H2m; simpl; try lia;
    exfalso.
  all: repeat match goal with
       | H : Qle_bool _ _ = true |- _ => apply Qle_bool_iff in H
       | H : Qle_bool ?a ?b = false |- _ =>
           assert (~ (a <= b)%Q) by (rewrite <- Qle_bool_iff; congruence); clear H
       end.
  all: try (match goal with
            | Hn : ~ (?a <= ?y)%Q, Hp : (?a <= ?x)%Q, Hxy : (?x <= ?y)%Q |- _ =>
                apply Hn; eapply Qle_trans; [exact Hp | exact Hxy]
            end).
  all: match goal with
       | Hn : ~ (35 # 100 <= ?x)%Q, Hp : (75 # 100 <= ?x)%Q |- _ =>
           apply Hn; eapply Qle_trans; [|exact Hp]; discriminate
       end.
Qed.

Lemma risk_level_monotone_witness :
  (risk_score (make_row "a-1" sample_features (30 # 100) 0)
   <= risk_score (make_row "a-2" sample_features (80 # 100) 0))%Q
  /\ (risk_rank (risk_level (make_row "a-1" sample_features (30 # 100) 0))
      <= risk_rank (risk_level (make_row "a-2" sample_features (80 # 100) 0)))%nat.
Proof.
  assert (risk_score (make_row "a-1" sample_features (30 # 100) 0)
          <= risk_score (make_row "a-2" sample_features (80 # 100) 0))%Q as H
    by (vm_compute; discriminate).
  split; [exact H|]. exact (risk_level_monotone _ _ H).
Defined.

(** X23. Whatever the score, the text of the generated risk level fits the
    six characters of its column and is one of the options of the dashboard
    filter; and every option of the filter other than the empty one is the
    level of some row. *)
Theorem risk_level_fits_and_filters :
  (forall r : Row,
      (String.length (risk_level_text (risk_level r)) <= risk_level_width)%nat
      /\ risk_level_text (risk_level r) ∈ riskLevelOptions)
  /\ (forall o, o ∈ riskLevelOptions -> o <> "" ->
                exists r : Row, risk_level_text (risk_level r) = o).
Proof.
  split.
  - intros r. destruct (risk_level r); simpl; unfold risk_level_width, riskLevelOptions;
      (split; [lia|]); repeat ((by left) || right).
  - intros o Ho Hne. unfold riskLevelOptions in Ho.
    repeat (apply elem_of_cons in Ho as [->|Ho]); [done| | | |by apply elem_of_nil in Ho].
    + by exists (make_row "a-1" sample_features (10 # 100) 0).
    + by exists (make_row "a-1" sample_features (50 # 100) 0).
    + by exists (make_row "a-1" sample_features (90 # 100) 0).
Qed.

End RiskLevelFacts.
